(** * wavry: control-plane load driver and TCP chaos proxy

    A shallow embedding of [scripts/lib/control-plane-load-driver.py] and
    [scripts/lib/tcp-chaos-proxy.py], with the properties of their
    specification stated and proved over it.

    Python [int] is [Z]; Python [float] is the kernel's binary64
    ([PrimFloat.float]); [str] is [string]; the outside world (HTTP
    outcomes, clock readings, socket reads) is an explicit script that the
    functions consume. *)

From Stdlib Require Import ZArith String Ascii List Lia Bool Floats.
From Stdlib Require Import Decimal DecimalString DecimalZ DecimalPos.
From Stdlib Require Import Permutation Sorted.
From Stdlib.Strings Require Import Byte.
From Stdlib Require Uint63 Zpower.
Import ListNotations.

Set Warnings "-inexact-float,-register-all".

Open Scope Z_scope.

(** * Python values and builtins used by the two scripts *)

Module Py.

Inductive exn : Type :=
| HTTPError (code : Z)
| URLError
| TimeoutError
| ConnectionError
| JSONDecodeError
| TypeError
| IndexError
| ValueError
| OverflowError.

(** A call either returns or raises. *)
Inductive outcome (A : Type) : Type :=
| Return (a : A)
| Raise (e : exn).
Arguments Return {A} a.
Arguments Raise {A} e.

Definition bind {A B} (c : outcome A) (k : A -> outcome B) : outcome B :=
  match c with
  | Return a => k a
  | Raise e => Raise e
  end.

(** [try: c  except Exception: pass] *)
Definition suppress (c : outcome unit) : outcome unit :=
  match c with
  | Return u => Return u
  | Raise _ => Return tt
  end.

Inductive json : Type :=
| JNull
| JBool (b : bool)
| JInt (z : Z)
| JFloat (f : float)
| JStr (s : string)
| JList (items : list json)
| JDict (fields : list (string * json)).

(** [str(z)] / [f"{z}"] of an [int]: decimal digits, ["-"] in front of a
    negative number, ["0"] for zero. *)
Definition str (z : Z) : string := NilZero.string_of_int (Z.to_int z).

Fixpoint zeros (n : nat) : string :=
  match n with
  | O => EmptyString
  | S n' => String "0" (zeros n')
  end.

(** [f"{z:03d}"]: the sign, then the digits padded with zeros to a total
    width of three. *)
Definition format_03d (z : Z) : string :=
  let sign := if z <? 0 then "-"%string else EmptyString in
  let digits := str (Z.abs z) in
  (sign ++ zeros (3 - String.length sign - String.length digits) ++ digits)%string.

(** [s.startswith(p)]. *)
Definition startswith (s p : string) : bool := String.prefix p s.

(** [range(n)] *)
Definition range (n : Z) : list Z := map Z.of_nat (seq 0 (Z.to_nat n)).

Definition len {A} (l : list A) : Z := Z.of_nat (List.length l).

(** [l[i]]: a negative index counts from the end; out of range raises. *)
Definition index {A} (l : list A) (i : Z) : outcome A :=
  let j := if i <? 0 then len l + i else i in
  if j <? 0 then Raise IndexError
  else match nth_error l (Z.to_nat j) with
       | Some x => Return x
       | None => Raise IndexError
       end.

(** [float(z)], and the conversion of the [int] operand of a mixed
    [int]/[float] operation: the nearest binary64, ties to even. *)
Definition to_float (z : Z) : float :=
  SF2Prim (binary_normalize prec emax z 0 false).

(** [int(x)]: truncation towards zero; raises on an infinity or a NaN. *)
Definition to_int (x : float) : outcome Z :=
  match Prim2SF x with
  | S754_zero _ => Return 0
  | S754_finite s m e =>
      let magnitude :=
        if 0 <=? e then Z.pos m * 2 ^ e else Z.pos m / 2 ^ (- e) in
      Return (if s then - magnitude else magnitude)
  | S754_infinity _ => Raise OverflowError
  | S754_nan => Raise ValueError
  end.

(** [x < k] for a [float] [x] and an [int] [k]: Python compares the two
    numbers exactly, without converting [k]. *)
Definition float_lt_int (x : float) (k : Z) : bool :=
  match Prim2SF x with
  | S754_zero _ => 0 <? k
  | S754_finite s m e =>
      let v := if s then Z.neg m else Z.pos m in
      if 0 <=? e then v * 2 ^ e <? k else v <? k * 2 ^ (- e)
  | S754_infinity s => s
  | S754_nan => false
  end.

(** [a / b] on two [int]s, for [b <> 0] and operands below 2^53 in
    magnitude, where it is the binary64 quotient of the two converted
    operands. *)
Definition truediv (a b : Z) : float := (to_float a / to_float b)%float.

(** [sorted(values)]: a stable sort that only asks [<] of the elements.
    On a list that [<] orders (no NaN among floats) it is the stable
    insertion sort below. *)
Section Sorted.
Context {A : Type} (lt : A -> A -> bool).

Fixpoint insert (x : A) (l : list A) : list A :=
  match l with
  | [] => [x]
  | y :: l' => if lt y x then y :: insert x l' else x :: y :: l'
  end.

Fixpoint sorted_by (l : list A) : list A :=
  match l with
  | [] => []
  | x :: l' => insert x (sorted_by l')
  end.
End Sorted.

Definition sorted (values : list float) : list float :=
  sorted_by PrimFloat.ltb values.

(** [concurrent.futures.as_completed(futs)]: the futures' results in the
    order in which the calls complete, [order] listing submission
    indices. *)
Definition as_completed {R} (futs : list R) (order : list nat) : list R :=
  flat_map (fun i => match nth_error futs i with
                     | Some r => [r]
                     | None => []
                     end) order.

End Py.

Notation "x <- c ;; k" := (Py.bind c (fun x => k))
  (at level 61, c at next level, right associativity).

(** * The load driver: [scripts/lib/control-plane-load-driver.py] *)

Module Driver.

Import Py.
#[local] Open Scope string_scope.

(** The response [urlopen] returns: its status, what
    [resp.read().decode("utf-8")] gives, and what closing it gives when
    the [with] block is left. *)
Record response := {
  status : Z;
  read : outcome string;
  closed : outcome unit
}.

(** What the world does with one call of [post_json], in the order of
    the lines that ask for it:
    - [request], lines 31-32: encoding the payload and building the
      [Request], which refuses a URL without a scheme;
    - [started], line 33: the first reading of [time.perf_counter()];
    - [urlopen], line 35;
    - [finished]: the second reading, at line 36 when [urlopen]
      returned, at line 39 or 42 when it raised;
    - [handled]: the third reading, at line 39 or 42, when [urlopen]
      returned and the [with] block raised;
    - [error_body], line 40: what
      [exc.read().decode("utf-8", errors="replace")] gives. *)
Record attempt := {
  request : outcome unit;
  started : float;
  urlopen : outcome response;
  finished : float;
  handled : float;
  error_body : outcome string
}.

(** [with ... as resp: block]: the response is closed when the block is
    left, whether it returns or raises, and an exception of the close
    takes the place of the block's outcome. *)
Definition leaving {A} (resp : response) (block : outcome A) : outcome A :=
  match closed resp with
  | Return _ => block
  | Raise e => Raise e
  end.

Definition percentile (values : list float) (pct : float) : outcome float :=
  match values with
  | [] => Return 0%float
  | _ :: _ =>
      let ordered := sorted values in
      idx <- to_int (to_float (len ordered - 1) * pct)%float ;;
      index ordered idx
  end.

(** Lines 35-37, the body of the [try] statement. *)
Definition exchange (a : attempt) : outcome (Z * float * string) :=
  resp <- urlopen a ;;
  leaving resp
    (let elapsed_ms := ((finished a - started a) * 1000)%float in
     text <- read resp ;;
     Return (status resp, elapsed_ms, text)).

(** The reading of the clock in a handler, line 39 or 42. *)
Definition caught_at (a : attempt) : float :=
  match urlopen a with
  | Return _ => handled a
  | Raise _ => finished a
  end.

(** An exception raised inside the handler of line 38 is not handled by
    the one of line 41: it leaves [post_json], as does one raised before
    the [try]. *)
Definition post_json (url : string) (payload : json) (timeout : float)
    (a : attempt) : outcome (Z * float * string) :=
  req <- request a ;;
  let start := started a in
  match exchange a with
  | Return result => Return result
  | Raise (HTTPError code) =>
      let elapsed_ms := ((caught_at a - start) * 1000)%float in
      text <- error_body a ;;
      Return (code, elapsed_ms, text)
  | Raise _ =>
      let elapsed_ms := ((caught_at a - start) * 1000)%float in
      Return (0, elapsed_ms, "")
  end.

(** [json.loads] is the library's; [get_json] has no handler around
    [urlopen], nor around the reading and the parsing of the body. *)
Definition get_json (loads : string -> outcome json) (url : string)
    (timeout : float) (reply : outcome response) : outcome json :=
  resp <- reply ;;
  leaving resp (text <- read resp ;; loads text).

Definition generate_endpoint (index : Z) : string :=
  let a := 10 in
  let b := (index mod 200) + 1 in
  let c := ((index / 200) mod 200) + 1 in
  let d := 1 in
  let port := 20000 + (index mod 20000) in
  str a ++ "." ++ str b ++ "." ++ str c ++ "." ++ str d ++ ":" ++ str port.

Definition register_payload (relay_id endpoint : string) : json :=
  JDict [("relay_id", JStr relay_id);
         ("endpoints", JList [JStr endpoint]);
         ("region", JStr "loadtest-us");
         ("asn", JInt 64512);
         ("max_sessions", JInt 256);
         ("max_bitrate_kbps", JInt 20000);
         ("features", JList [JStr "ipv4"])].

Definition register_one (master_url relay_id endpoint : string)
    (timeout : float) (a : attempt) : outcome (bool * float * Z) :=
  let payload := register_payload relay_id endpoint in
  result <-
    post_json (master_url ++ "/v1/relays/register") payload timeout a ;;
  let '(status, elapsed_ms, _) := result in
  Return ((200 <=? status)%Z && (status <? 300)%Z, elapsed_ms, status).

(** [load] is the draw of [random.randint(5, 90)]. *)
Definition heartbeat_payload (relay_id : string) (load : Z) : json :=
  JDict [("relay_id", JStr relay_id); ("load_pct", JFloat (to_float load))].

Definition heartbeat_one (master_url relay_id : string) (timeout : float)
    (load : Z) (a : attempt) : outcome (bool * float * Z) :=
  let payload := heartbeat_payload relay_id load in
  result <-
    post_json (master_url ++ "/v1/relays/heartbeat") payload timeout a ;;
  let '(status, elapsed_ms, _) := result in
  Return ((200 <=? status)%Z && (status <? 300)%Z, elapsed_ms, status).

Record args := {
  master_url : string;
  relay_count : Z;
  soak_seconds : Z;
  interval_seconds : float;
  timeout_seconds : float;
  workers : Z;
  min_success_rate : float;
  max_register_p95_ms : float;
  max_heartbeat_p95_ms : float
}.

(** Everything [main] observes of the outside: the run token, the
    outcome of every submitted call by submission index (and by wave),
    the order in which the pool's futures complete, the successive
    readings of [time.monotonic()], the random loads, and the reply to
    the final listing request. *)
Record world := {
  token : string;
  register_attempt : nat -> attempt;
  register_order : list nat;
  monotonic : list float;
  heartbeat_load : nat -> nat -> Z;
  heartbeat_attempt : nat -> nat -> attempt;
  heartbeat_order : nat -> list nat;
  listing : outcome response
}.

Definition relay_ids (token : string) (relay_count : Z) : list string :=
  map (fun idx => "load-" ++ token ++ "-" ++ format_03d idx) (range relay_count).

(** The accumulation loop over [as_completed(futs)], lines 123-127 and
    149-154: one latency appended and one call counted per future.  A
    future holds what its call returned or raised, and [fut.result()]
    raises what the call raised. *)
Record tally := {
  total : Z;
  success : Z;
  latencies : list float
}.

Definition count (t : tally) (r : bool * float * Z) : tally :=
  let '(ok, latency_ms, _) := r in
  {| total := total t + 1;
     success := if ok then success t + 1 else success t;
     latencies := latencies t ++ [latency_ms] |}.

Fixpoint drain (t : tally) (completed : list (outcome (bool * float * Z)))
    : outcome tally :=
  match completed with
  | [] => Return t
  | fut :: rest =>
      result <- fut ;;
      drain (count t result) rest
  end.

(** Register phase, lines 109-130. *)
Definition register_calls (a : args) (w : world) (relay_count : Z)
    (ids : list string) : list (outcome (bool * float * Z)) :=
  map (fun idx =>
         register_one (master_url a) (nth (Z.to_nat idx) ids "")
           (generate_endpoint idx) (timeout_seconds a)
           (register_attempt w (Z.to_nat idx)))
      (range relay_count).

Definition register_phase (a : args) (w : world) (relay_count : Z)
    (ids : list string) : outcome tally :=
  drain {| total := 0; success := 0; latencies := [] |}
        (as_completed (register_calls a w relay_count ids) (register_order w)).

(** One pass of the soak loop, as observed. *)
Record wave := {
  tested_at : float;
  wave_start : float;
  calls : list (string * json);
  wave_end : float;
  slept : option float
}.

Definition heartbeat_calls (a : args) (w : world) (ids : list string) (n : nat)
    : list (outcome (bool * float * Z)) :=
  map (fun '(i, relay_id) =>
         heartbeat_one (master_url a) relay_id (timeout_seconds a)
           (heartbeat_load w n i) (heartbeat_attempt w n i))
      (combine (seq 0 (List.length ids)) ids).

Definition heartbeat_requests (a : args) (w : world) (ids : list string) (n : nat)
    : list (string * json) :=
  map (fun '(i, relay_id) =>
         (master_url a ++ "/v1/relays/heartbeat",
          heartbeat_payload relay_id (heartbeat_load w n i)))
      (combine (seq 0 (List.length ids)) ids).

(** The soak loop, lines 136-159.  Each pass reads the clock three
    times: in the loop test, at the start of the wave and after it.
    [None] when the readings run out while the loop is still going; an
    exception of [fut.result()] leaves the loop. *)
Fixpoint soak_loop (a : args) (w : world) (ids : list string) (start : float)
    (clock : list float) (n : nat) (t : tally)
    : option (outcome (list wave * tally)) :=
  match clock with
  | [] => None
  | now :: clock1 =>
      if float_lt_int (now - start)%float (soak_seconds a) then
        match clock1 with
        | [] => None
        | wave_start :: clock2 =>
            match drain t (as_completed (heartbeat_calls a w ids n)
                                        (heartbeat_order w n)) with
            | Raise e => Some (Raise e)
            | Return t' =>
                match clock2 with
                | [] => None
                | wave_end :: clock3 =>
                    let elapsed := (wave_end - wave_start)%float in
                    let sleep_for := (interval_seconds a - elapsed)%float in
                    let this :=
                      {| tested_at := now;
                         wave_start := wave_start;
                         calls := heartbeat_requests a w ids n;
                         wave_end := wave_end;
                         slept := if (0 <? sleep_for)%float then Some sleep_for
                                  else None |} in
                    match soak_loop a w ids start clock3 (S n) t' with
                    | Some (Return (waves, t'')) =>
                        Some (Return (this :: waves, t''))
                    | Some (Raise e) => Some (Raise e)
                    | None => None
                    end
                end
            end
        end
      else Some (Return ([], t))
  end.

Definition soak_phase (a : args) (w : world) (ids : list string)
    : option (outcome (list wave * tally)) :=
  match monotonic w with
  | [] => None
  | start :: clock =>
      soak_loop a w ids start clock 0
                {| total := 0; success := 0; latencies := [] |}
  end.

(** Lines 164-166.  Iterating a list gives its items, a dict its keys
    and a string its characters; anything else is not iterable.  Only a
    hashable value can enter the set. *)
Definition iterate (j : json) : outcome (list json) :=
  match j with
  | JList items => Return items
  | JDict fields => Return (map (fun kv => JStr (fst kv)) fields)
  | JStr s => Return (map (fun c => JStr (String c EmptyString)) (list_ascii_of_string s))
  | _ => Raise TypeError
  end.

Definition dict_get (fields : list (string * json)) (key : string) : json :=
  match find (fun kv => String.eqb (fst kv) key) fields with
  | Some kv => snd kv
  | None => JNull
  end.

Fixpoint registered_ids (items : list json) : outcome (list json) :=
  match items with
  | [] => Return []
  | JDict fields :: rest =>
      match dict_get fields "relay_id" with
      | JList _ | JDict _ => Raise TypeError
      | v => ids <- registered_ids rest ;; Return (v :: ids)
      end
  | _ :: rest => registered_ids rest
  end.

Definition is_str (relay_id : string) (v : json) : bool :=
  match v with
  | JStr s => String.eqb relay_id s
  | _ => false
  end.

Definition missing_relays (ids : list string) (registered : list json)
    : list string :=
  filter (fun relay_id => negb (existsb (is_str relay_id) registered)) ids.

Record stats := {
  st_relay_count : Z;
  register_success_rate : float;
  register_p95_ms : float;
  heartbeat_total : Z;
  heartbeat_success_rate : float;
  heartbeat_p95_ms : float;
  heartbeat_latencies : list float;
  missing : list string
}.

Record summary := {
  s_relay_count : Z;
  s_register_success_rate : float;
  s_register_p95_ms : float;
  s_heartbeat_total : Z;
  s_heartbeat_success_rate : float;
  s_heartbeat_p95_ms : float;
  s_missing_registered_relays : Z;
  s_mean_heartbeat_ms : float
}.

(** The line written to stderr, by the values formatted into it. *)
Inductive diagnostic : Type :=
| RegisterRateBelow (rate threshold : float)
| HeartbeatRateBelow (rate threshold : float)
| RegisterP95Above (p95 threshold : float)
| HeartbeatP95Above (p95 threshold : float)
| MissingRelays (n : Z) (example : string).

(** What the process writes, in order: to stdout and to stderr. *)
Inductive line : Type :=
| Stdout (s : summary)
| Stderr (d : diagnostic).

Record output := {
  printed : list line;
  code : Z
}.

Section Main.

(** The builtin [round(x, ndigits)], [statistics.mean] and
    [json.loads] are the interpreter's and the library's. *)
Variable round : float -> Z -> float.
Variable mean : list float -> float.
Variable loads : string -> outcome json.

(** Lines 168-214: the summary is printed, then the thresholds are
    tested in turn. *)
Definition report (a : args) (st : stats) : output :=
  let summary :=
    {| s_relay_count := st_relay_count st;
       s_register_success_rate := round (register_success_rate st) 4;
       s_register_p95_ms := round (register_p95_ms st) 2;
       s_heartbeat_total := heartbeat_total st;
       s_heartbeat_success_rate := round (heartbeat_success_rate st) 4;
       s_heartbeat_p95_ms := round (heartbeat_p95_ms st) 2;
       s_missing_registered_relays := len (missing st);
       s_mean_heartbeat_ms :=
         match heartbeat_latencies st with
         | [] => 0%float
         | _ :: _ => round (mean (heartbeat_latencies st)) 2
         end |} in
  let out := [Stdout summary] in
  if (register_success_rate st <? min_success_rate a)%float then
    {| printed :=
         out ++ [Stderr (RegisterRateBelow (register_success_rate st)
                                           (min_success_rate a))];
       code := 1 |}
  else if (heartbeat_success_rate st <? min_success_rate a)%float then
    {| printed :=
         out ++ [Stderr (HeartbeatRateBelow (heartbeat_success_rate st)
                                            (min_success_rate a))];
       code := 1 |}
  else if (max_register_p95_ms a <? register_p95_ms st)%float then
    {| printed :=
         out ++ [Stderr (RegisterP95Above (register_p95_ms st)
                                          (max_register_p95_ms a))];
       code := 1 |}
  else if (max_heartbeat_p95_ms a <? heartbeat_p95_ms st)%float then
    {| printed :=
         out ++ [Stderr (HeartbeatP95Above (heartbeat_p95_ms st)
                                           (max_heartbeat_p95_ms a))];
       code := 1 |}
  else
    match missing st with
    | example :: _ =>
        {| printed := out ++ [Stderr (MissingRelays (len (missing st)) example)];
           code := 1 |}
    | [] => {| printed := out; code := 0 |}
    end.

(** Lines 103-166: both phases and the listing.  [None]: the clock
    readings ran out during the soak loop. *)
Definition measure (a : args) (w : world) : option (outcome stats) :=
  let relay_count := Z.max 1 (relay_count a) in
  let workers := Z.max 1 (workers a) in
  let ids := relay_ids (token w) relay_count in
  match register_phase a w relay_count ids with
  | Raise e => Some (Raise e)
  | Return registered =>
      let register_success_rate := truediv (success registered) relay_count in
      match percentile (latencies registered) 0.95 with
      | Raise e => Some (Raise e)
      | Return register_p95_ms =>
          match soak_phase a w ids with
          | None => None
          | Some (Raise e) => Some (Raise e)
          | Some (Return (_, beats)) =>
              let heartbeat_success_rate :=
                if (total beats =? 0)%Z then 0%float
                else truediv (success beats) (total beats) in
              Some (heartbeat_p95_ms <- percentile (latencies beats) 0.95 ;;
                    registered_relays <-
                      get_json loads (master_url a ++ "/v1/relays")
                               (timeout_seconds a) (listing w) ;;
                    items <- iterate registered_relays ;;
                    present <- registered_ids items ;;
                    Return {| st_relay_count := relay_count;
                              register_success_rate := register_success_rate;
                              register_p95_ms := register_p95_ms;
                              heartbeat_total := total beats;
                              heartbeat_success_rate := heartbeat_success_rate;
                              heartbeat_p95_ms := heartbeat_p95_ms;
                              heartbeat_latencies := latencies beats;
                              missing := missing_relays ids present |})
          end
      end
  end.

Definition main (a : args) (w : world) : option (outcome output) :=
  match measure a w with
  | None => None
  | Some (Raise e) => Some (Raise e)
  | Some (Return st) => Some (Return (report a st))
  end.

(** [raise SystemExit(main())]: the status the process ends with; an
    exception that leaves [main] ends it with status 1. *)
Definition exit_status (r : outcome output) : Z :=
  match r with
  | Return out => code out
  | Raise _ => 1
  end.

End Main.

End Driver.

(** * The chaos proxy: [scripts/lib/tcp-chaos-proxy.py] *)

Module Proxy.

Import Py.

Definition bytes := list byte.

(** The read side of a stream, as the world decides it: what the
    successive [await reader.read(65536)] calls give, a chunk or an
    exception; once the script is used up the stream is at its end and
    [read] gives [b""]. *)
Definition reader := list (outcome bytes).

(** The write side: whether the [k]-th [write]/[drain] pair raises, and
    whether [close()] and [wait_closed()] do. *)
Record writer := {
  drain : nat -> outcome unit;
  close : outcome unit;
  wait_closed : outcome unit
}.

(** The stream operations a task performs, in order. *)
Inductive io : Type :=
| Read (n : Z)
| Write (chunk : bytes)
| Drain
| Close
| WaitClosed.

(** The [while True] loop of [pipe], lines 13-18; [k] counts the chunks
    written so far. *)
Fixpoint pipe_loop (r : reader) (w : writer) (k : nat)
    : list io * outcome unit :=
  match r with
  | [] => ([Read 65536], Return tt)
  | Raise e :: _ => ([Read 65536], Raise e)
  | Return [] :: _ => ([Read 65536], Return tt)
  | Return chunk :: r' =>
      match drain w k with
      | Raise e => ([Read 65536; Write chunk; Drain], Raise e)
      | Return _ =>
          let '(ops, result) := pipe_loop r' w (S k) in
          (Read 65536 :: Write chunk :: Drain :: ops, result)
      end
  end.

(** [writer.close(); await writer.wait_closed()] *)
Definition shut (w : writer) : list io * outcome unit :=
  match close w with
  | Raise e => ([Close], Raise e)
  | Return _ => ([Close; WaitClosed], wait_closed w)
  end.

Definition pipe (r : reader) (w : writer) : list io * outcome unit :=
  (* try: ... except Exception: pass *)
  let '(ops, result) := pipe_loop r w 0 in
  let result := suppress result in
  (* finally: with contextlib.suppress(Exception): ... *)
  let '(closing, closed) := shut w in
  (ops ++ closing, _ <- suppress closed ;; result).

Record args := {
  listen_host : string;
  listen_port : Z;
  target_host : string;
  target_port : Z;
  delay_ms : Z;
  drop_every : Z
}.

Record state := { conn_count : Z }.

(** One accepted connection: the client's two stream halves and what
    dialling the target gives for it. *)
Record connection := {
  client_reader : reader;
  client_writer : writer;
  open_connection : outcome (reader * writer)
}.

(** What [handle] does for a connection, in order.  [Gather] holds the
    operations of the two concurrent [pipe] tasks, client to upstream
    and upstream to client. *)
Inductive action : Type :=
| ClientIO (op : io)
| Sleep (seconds : float)
| OpenConnection (host : string) (port : Z)
| Gather (client_to_upstream upstream_to_client : list io).

Definition handle (a : args) (st : state) (c : connection)
    : state * list action * outcome unit :=
  let st := {| conn_count := conn_count st + 1 |} in
  let conn_idx := conn_count st in
  if (if 0 <? drop_every a then conn_idx mod drop_every a =? 0 else false) then
    let '(ops, result) := shut (client_writer c) in
    (st, map ClientIO ops, result)
  else
    let delay :=
      if 0 <? delay_ms a then [Sleep (to_float (delay_ms a) / 1000)%float]
      else [] in
    let dial := OpenConnection (target_host a) (target_port a) in
    match open_connection c with
    | Raise _ =>
        let '(ops, result) := shut (client_writer c) in
        (st, delay ++ dial :: map ClientIO ops, result)
    | Return (upstream_reader, upstream_writer) =>
        let '(up, _) := pipe (client_reader c) upstream_writer in
        let '(down, _) := pipe upstream_reader (client_writer c) in
        (st, delay ++ [dial; Gather up down], Return tt)
    end.

(** The server's callbacks on the connections in the order they are
    accepted; each runs up to its first [await] before the next one
    starts, so the counter is read right after it is incremented. *)
Fixpoint serve (a : args) (st : state) (conns : list connection)
    : list (list action * outcome unit) :=
  match conns with
  | [] => []
  | c :: rest =>
      let '(st', acts, result) := handle a st c in
      (acts, result) :: serve a st' rest
  end.

Definition main (a : args) (conns : list connection)
    : list (list action * outcome unit) :=
  let st := {| conn_count := 0 |} in
  serve a st conns.

End Proxy.

(** * Properties *)

(** ** Endpoints: decimal rendering *)

Section DecimalText.

Open Scope string_scope.

Definition is_digit (c : ascii) : bool :=
  match c with
  | "0" | "1" | "2" | "3" | "4" | "5" | "6" | "7" | "8" | "9" => true
  | _ => false
  end%char.

Fixpoint all_digits (s : string) : bool :=
  match s with
  | EmptyString => true
  | String c s' => is_digit c && all_digits s'
  end.

Lemma all_digits_string_of_uint (d : uint) :
  all_digits (NilEmpty.string_of_uint d) = true.
Proof. induction d; simpl; auto. Qed.

Lemma str_pos_digits (z : Z) :
  0 < z -> all_digits (Py.str z) = true.
Proof.
  destruct z as [|p|p]; try lia. intros _.
  unfold Py.str, Z.to_int, NilZero.string_of_int, NilZero.string_of_uint.
  pose proof (DecimalPos.Unsigned.to_uint_nonnil p) as Hn.
  destruct (Pos.to_uint p) as [|u|u|u|u|u|u|u|u|u|u] eqn:E; try congruence;
    match goal with
    | |- all_digits (NilEmpty.string_of_uint ?d) = true =>
        apply (all_digits_string_of_uint d)
    end.
Qed.

Lemma str_inj (x y : Z) : Py.str x = Py.str y -> x = y.
Proof.
  unfold Py.str. intros H.
  apply DecimalZ.to_int_inj.
  assert (Hn : forall z, Z.to_int z <> Pos Nil /\ Z.to_int z <> Neg Nil).
  { intros [|p|p]; simpl; split; try discriminate;
      intros [= E]; now apply (DecimalPos.Unsigned.to_uint_nonnil p). }
  destruct (Hn x) as [x1 x2], (Hn y) as [y1 y2].
  pose proof (NilZero.isi _ x1 x2) as Ex.
  pose proof (NilZero.isi _ y1 y2) as Ey.
  rewrite H in Ex. congruence.
Qed.

(** A run of digits closed by a non-digit is read back unambiguously: if
    [s1 ++ sep :: r1] is a prefix of [s2 ++ sep :: r2], the two runs are
    the same and the prefix relation carries on to the rests. *)
Lemma prefix_digit_run (sep : ascii) (s1 : string) :
  is_digit sep = false ->
  forall s2 r1 r2,
    all_digits s1 = true -> all_digits s2 = true ->
    String.prefix (s1 ++ String sep r1) (s2 ++ String sep r2) = true ->
    s1 = s2 /\ String.prefix r1 r2 = true.
Proof.
  intros Hsep. induction s1 as [|c s1 IH]; intros [|c' s2] r1 r2 H1 H2 Hp;
    simpl in *.
  - destruct (ascii_dec sep sep); [auto | congruence].
  - destruct (ascii_dec sep c') as [->|]; [|discriminate].
    apply andb_prop in H2. destruct H2; congruence.
  - destruct (ascii_dec c sep) as [->|]; [|discriminate].
    apply andb_prop in H1. destruct H1; congruence.
  - destruct (ascii_dec c c') as [->|]; [|discriminate].
    apply andb_prop in H1. apply andb_prop in H2.
    destruct H1 as [_ H1], H2 as [_ H2].
    destruct (IH s2 r1 r2 H1 H2 Hp) as [-> Hr]. auto.
Qed.

Lemma prefix_refl (s : string) : String.prefix s s = true.
Proof.
  induction s as [|c s IH]; simpl; auto.
  destruct (ascii_dec c c); [auto | congruence].
Qed.

End DecimalText.

(** The second and third octets determine an index below 200 * 200. *)
Lemma octets_determine_index (i j : Z) :
  0 <= i < 40000 -> 0 <= j < 40000 ->
  i mod 200 + 1 = j mod 200 + 1 ->
  (i / 200) mod 200 + 1 = (j / 200) mod 200 + 1 ->
  i = j.
Proof.
  intros Hi Hj Hb Hc.
  rewrite (Z.mod_small (i / 200)) in Hc
    by (split; [apply Z.div_pos; lia | apply Z.div_lt_upper_bound; lia]).
  rewrite (Z.mod_small (j / 200)) in Hc
    by (split; [apply Z.div_pos; lia | apply Z.div_lt_upper_bound; lia]).
  rewrite (Z.div_mod i 200), (Z.div_mod j 200) by lia. lia.
Qed.

Lemma endpoint_prefix_same_index (i j : Z) :
  0 <= i < 40000 -> 0 <= j < 40000 ->
  Py.startswith (Driver.generate_endpoint j) (Driver.generate_endpoint i) = true ->
  i = j.
Proof.
  intros Hi Hj. unfold Py.startswith, Driver.generate_endpoint.
  cbv zeta. change (Py.str 10) with "10"%string.
  cbn [String.append String.prefix].
  repeat (destruct (ascii_dec _ _); [|congruence]).
  intros Hp.
  assert (Hbi : 0 < i mod 200 + 1) by (pose proof (Z.mod_pos_bound i 200); lia).
  assert (Hbj : 0 < j mod 200 + 1) by (pose proof (Z.mod_pos_bound j 200); lia).
  assert (Hci : 0 < (i / 200) mod 200 + 1)
    by (pose proof (Z.mod_pos_bound (i / 200) 200); lia).
  assert (Hcj : 0 < (j / 200) mod 200 + 1)
    by (pose proof (Z.mod_pos_bound (j / 200) 200); lia).
  apply prefix_digit_run in Hp; auto using str_pos_digits.
  destruct Hp as [Eb Hp].
  apply prefix_digit_run in Hp; auto using str_pos_digits.
  destruct Hp as [Ec _].
  apply str_inj in Eb. apply str_inj in Ec.
  now apply octets_determine_index.
Qed.

(** C1.  For distinct relay indices below 200 * 200 = 40000 the generated
    endpoints are distinct strings and neither is a prefix of the other. *)
Theorem generate_endpoint_prefix_free (i j : Z) :
  0 <= i < 40000 -> 0 <= j < 40000 -> i <> j ->
  Driver.generate_endpoint i <> Driver.generate_endpoint j /\
  Py.startswith (Driver.generate_endpoint j) (Driver.generate_endpoint i) = false /\
  Py.startswith (Driver.generate_endpoint i) (Driver.generate_endpoint j) = false.
Proof.
  intros Hi Hj Hne. repeat split.
  - intros E. apply Hne. apply endpoint_prefix_same_index; auto.
    unfold Py.startswith. rewrite E. apply prefix_refl.
  - destruct (Py.startswith _ _) eqn:E; auto.
    exfalso. apply Hne. now apply endpoint_prefix_same_index.
  - destruct (Py.startswith _ _) eqn:E; auto.
    exfalso. apply Hne. symmetry. now apply endpoint_prefix_same_index.
Qed.

Lemma generate_endpoint_prefix_free_witness :
  Driver.generate_endpoint 0 <> Driver.generate_endpoint 9 /\
  Py.startswith (Driver.generate_endpoint 9) (Driver.generate_endpoint 0) = false /\
  Py.startswith (Driver.generate_endpoint 0) (Driver.generate_endpoint 9) = false.
Proof. apply (generate_endpoint_prefix_free 0 9); lia. Defined.

(** ** The chaos proxy: forwarding *)

Section Forwarding.

Import Py Proxy.

(** The byte stream a reader delivers: its chunks up to the end of the
    stream, which is the first empty read, the first read that raises, or
    the end of the script. *)
Fixpoint source (r : reader) : list bytes :=
  match r with
  | Return (b :: chunk) :: r' => (b :: chunk) :: source r'
  | _ => []
  end.

Definition written (ops : list io) : list bytes :=
  flat_map (fun op => match op with Write chunk => [chunk] | _ => [] end) ops.

Definition read_sizes (ops : list io) : list Z :=
  flat_map (fun op => match op with Read n => [n] | _ => [] end) ops.

Definition closes (ops : list io) : nat :=
  List.length (filter (fun op => match op with Close => true | _ => false end) ops).

Lemma written_app (xs ys : list io) : written (xs ++ ys) = written xs ++ written ys.
Proof. apply flat_map_app. Qed.

Lemma read_sizes_app (xs ys : list io) :
  read_sizes (xs ++ ys) = read_sizes xs ++ read_sizes ys.
Proof. apply flat_map_app. Qed.

Lemma shut_ops (w : writer) :
  fst (shut w) = [Close] \/ fst (shut w) = [Close; WaitClosed].
Proof. unfold shut. destruct (close w); simpl; auto. Qed.

Lemma pipe_loop_reads (r : reader) :
  forall w k, Forall (fun n => n = 65536) (read_sizes (fst (pipe_loop r w k))).
Proof.
  induction r as [|[[|b chunk]|e] r IH]; intros w k; simpl;
    try (repeat constructor; fail).
  destruct (drain w k).
  - specialize (IH w (S k)). destruct (pipe_loop r w (S k)) as [ops res].
    simpl in *. constructor; auto.
  - simpl. repeat constructor.
Qed.

Lemma pipe_loop_written_prefix (r : reader) :
  forall w k, exists n, written (fst (pipe_loop r w k)) = firstn n (source r).
Proof.
  induction r as [|[[|b chunk]|e] r IH]; intros w k; simpl;
    try (exists 0%nat; reflexivity).
  destruct (drain w k).
  - destruct (IH w (S k)) as [n Hn].
    destruct (pipe_loop r w (S k)) as [ops res]. simpl in *.
    exists (S n). simpl. now rewrite Hn.
  - exists 1%nat. reflexivity.
Qed.

Lemma pipe_loop_written_all (r : reader) :
  forall w k,
    (forall j, drain w j = Return tt) ->
    written (fst (pipe_loop r w k)) = source r /\
    List.length (read_sizes (fst (pipe_loop r w k))) = S (List.length (source r)).
Proof.
  induction r as [|[[|b chunk]|e] r IH]; intros w k Hd; simpl; auto.
  rewrite Hd. destruct (IH w (S k) Hd) as [Hw Hr].
  destruct (pipe_loop r w (S k)) as [ops res]. simpl in *.
  now rewrite Hw, Hr.
Qed.

Lemma pipe_loop_no_close (r : reader) :
  forall w k, closes (fst (pipe_loop r w k)) = 0%nat.
Proof.
  induction r as [|[[|b chunk]|e] r IH]; intros w k; simpl; auto.
  destruct (drain w k); auto.
  specialize (IH w (S k)). destruct (pipe_loop r w (S k)). simpl in *. auto.
Qed.

(** C8.  A forwarding direction reads 65536 bytes at a time, writes what
    it read unchanged and in order (all of the source's stream when the
    sink takes every write), stops at the end of the stream or at the
    first failing read, closes its writer exactly once, last, and returns
    normally whatever the close raised. *)
Theorem pipe_copies_stream (r : reader) (w : writer) :
  let ops := fst (pipe r w) in
  snd (pipe r w) = Return tt /\
  Forall (fun n => n = 65536) (read_sizes ops) /\
  (exists n, written ops = firstn n (source r)) /\
  ((forall j, drain w j = Return tt) ->
     written ops = source r /\
     List.length (read_sizes ops) = S (List.length (source r))) /\
  (exists copied, ops = copied ++ fst (shut w) /\ closes copied = 0%nat) /\
  closes ops = 1%nat.
Proof.
  unfold pipe.
  pose proof (pipe_loop_reads r w 0) as Hreads.
  pose proof (pipe_loop_written_prefix r w 0) as Hpre.
  pose proof (pipe_loop_written_all r w 0) as Hall.
  pose proof (pipe_loop_no_close r w 0) as Hclose.
  destruct (pipe_loop r w 0) as [ops res]. simpl in *.
  pose proof (shut_ops w) as Hshut.
  destruct (shut w) as [closing closed]. simpl in *.
  assert (Hw : written closing = []) by (destruct Hshut; subst; reflexivity).
  assert (Hr : read_sizes closing = []) by (destruct Hshut; subst; reflexivity).
  repeat split.
  - destruct closed as [[]|?], res as [[]|?]; reflexivity.
  - rewrite read_sizes_app, Hr, app_nil_r. exact Hreads.
  - rewrite written_app, Hw, app_nil_r. exact Hpre.
  - rewrite written_app, Hw, app_nil_r. now apply Hall.
  - rewrite read_sizes_app, Hr, app_nil_r. now apply Hall.
  - exists ops. auto.
  - unfold closes in *. rewrite filter_app, length_app, Hclose.
    destruct Hshut; subst; reflexivity.
Qed.

End Forwarding.

Definition sample_reader : Proxy.reader :=
  [Py.Return [x01; x02]%byte; Py.Return [x03]%byte; Py.Return [];
   Py.Return [x04]%byte].

Definition sample_writer : Proxy.writer :=
  {| Proxy.drain := fun _ => Py.Return tt;
     Proxy.close := Py.Return tt;
     Proxy.wait_closed := Py.Raise Py.ConnectionError |}.

Lemma pipe_copies_stream_witness :
  snd (Proxy.pipe sample_reader sample_writer) = Py.Return tt /\
  written (fst (Proxy.pipe sample_reader sample_writer))
    = [[x01; x02]; [x03]]%byte.
Proof.
  destruct (pipe_copies_stream sample_reader sample_writer)
    as (Hres & _ & _ & Hall & _).
  split; [exact Hres | apply Hall; reflexivity].
Defined.

(** ** The chaos proxy: deterministic drop *)

Section Dropping.

Import Py Proxy.

Definition dials (acts : list action) : bool :=
  existsb (fun act => match act with OpenConnection _ _ => true | _ => false end)
          acts.


Definition delay (a : args) : list action :=
  if 0 <? delay_ms a then [Sleep (to_float (delay_ms a) / 1000)%float] else [].







End Dropping.

Definition sample_connection : Proxy.connection :=
  {| Proxy.client_reader := sample_reader;
     Proxy.client_writer := sample_writer;
     Proxy.open_connection := Py.Return (sample_reader, sample_writer) |}.

Definition sample_proxy_args : Proxy.args :=
  {| Proxy.listen_host := "127.0.0.1";
     Proxy.listen_port := 9000;
     Proxy.target_host := "127.0.0.1";
     Proxy.target_port := 9001;
     Proxy.delay_ms := 0;
     Proxy.drop_every := 3 |}.


(** With a drop period of 3, of nine connections the third, sixth and
    ninth are the ones that never dial. *)
Example drop_every_3_of_9 :
  map (fun session => dials (fst session))
      (Proxy.main sample_proxy_args (repeat sample_connection 9))
  = [true; true; false; true; true; false; true; true; false].
Proof. reflexivity. Qed.

(** ** The driver: thresholds and exit code *)

Section Verdict.

Import Py Driver.

Variable round : float -> Z -> float.
Variable mean : list float -> float.
Variable loads : string -> outcome json.

(** The five conditions in the order the specification lists them, each
    with the line it reports. *)
Definition violations (a : args) (st : stats) : list (bool * diagnostic) :=
  [ ((register_success_rate st <? min_success_rate a)%float,
     RegisterRateBelow (register_success_rate st) (min_success_rate a));
    ((heartbeat_success_rate st <? min_success_rate a)%float,
     HeartbeatRateBelow (heartbeat_success_rate st) (min_success_rate a));
    ((max_register_p95_ms a <? register_p95_ms st)%float,
     RegisterP95Above (register_p95_ms st) (max_register_p95_ms a));
    ((max_heartbeat_p95_ms a <? heartbeat_p95_ms st)%float,
     HeartbeatP95Above (heartbeat_p95_ms st) (max_heartbeat_p95_ms a));
    (match missing st with [] => false | _ :: _ => true end,
     MissingRelays (len (missing st)) (hd EmptyString (missing st))) ].

Definition first_violation (a : args) (st : stats) : list diagnostic :=
  match find fst (violations a st) with
  | Some (_, d) => [d]
  | None => []
  end.

Lemma report_verdict (a : args) (st : stats) :
  let out := report round mean a st in
  (code out <> 0 <->
     (register_success_rate st <? min_success_rate a)%float = true \/
     (heartbeat_success_rate st <? min_success_rate a)%float = true \/
     (max_register_p95_ms a <? register_p95_ms st)%float = true \/
     (max_heartbeat_p95_ms a <? heartbeat_p95_ms st)%float = true \/
     missing st <> []) /\
  (code out = 0 \/ code out = 1) /\
  (exists s, printed out = Stdout s :: map Stderr (first_violation a st)) /\
  (code out = 0 <-> first_violation a st = []).
Proof.
  unfold report, first_violation, violations. cbn [find fst].
  destruct (register_success_rate st <? min_success_rate a)%float;
    [cbn; intuition (eauto; try discriminate)|].
  destruct (heartbeat_success_rate st <? min_success_rate a)%float;
    [cbn; intuition (eauto; try discriminate)|].
  destruct (max_register_p95_ms a <? register_p95_ms st)%float;
    [cbn; intuition (eauto; try discriminate)|].
  destruct (max_heartbeat_p95_ms a <? heartbeat_p95_ms st)%float;
    [cbn; intuition (eauto; try discriminate)|].
  destruct (missing st) as [|example rest];
    cbn; intuition (eauto; try discriminate; try congruence).
Qed.

(** C4, as the code has it.  A run of [main] that ends, ends in one of
    two ways.  Either lines 103-166 give the statistics: then the summary
    is the first thing printed, the process ends with a non-zero status
    exactly when one of the five conditions holds, the status is then 1,
    and the one line on stderr is that of the first condition, in the
    order register rate, heartbeat rate, register p95, heartbeat p95,
    missing relays, that holds.  Or an exception leaves lines 103-166:
    then it leaves [main], nothing is printed, no condition is tested
    and the process ends with status 1. *)
Theorem slo_exit_code (a : args) (w : world) (r : outcome output) :
  main round mean loads a w = Some r ->
  (exists st out,
     measure loads a w = Some (Return st) /\
     r = Return out /\
     (exit_status r <> 0 <->
        (register_success_rate st <? min_success_rate a)%float = true \/
        (heartbeat_success_rate st <? min_success_rate a)%float = true \/
        (max_register_p95_ms a <? register_p95_ms st)%float = true \/
        (max_heartbeat_p95_ms a <? heartbeat_p95_ms st)%float = true \/
        missing st <> []) /\
     (exit_status r = 0 \/ exit_status r = 1) /\
     (exists s, printed out = Stdout s :: map Stderr (first_violation a st)) /\
     (exit_status r = 0 <-> first_violation a st = [])) \/
  (exists e,
     measure loads a w = Some (Raise e) /\
     r = Raise e /\
     exit_status r = 1).
Proof.
  unfold main. intros Hmain.
  destruct (measure loads a w) as [[st|e]|]; [| |discriminate].
  - left. exists st, (report round mean a st).
    injection Hmain as <-. cbn [exit_status].
    split; [reflexivity|]. split; [reflexivity|]. apply report_verdict.
  - right. exists e. injection Hmain as <-. repeat split.
Qed.

End Verdict.

(** ** [sorted]: the stable insertion sort *)

Section StableSort.

Context {A : Type} (lt : A -> A -> bool).

(** [le x y]: [y] is not below [x]. *)
Let le (x y : A) : Prop := lt y x = false.

Lemma insert_perm (x : A) (l : list A) :
  Permutation (Py.insert lt x l) (x :: l).
Proof.
  induction l as [|y l IH]; simpl; auto.
  destruct (lt y x); auto.
  rewrite IH. apply perm_swap.
Qed.

Lemma sorted_by_perm (l : list A) : Permutation (Py.sorted_by lt l) l.
Proof.
  induction l as [|x l IH]; simpl; auto.
  rewrite insert_perm. now constructor.
Qed.

Lemma sorted_by_length (l : list A) :
  List.length (Py.sorted_by lt l) = List.length l.
Proof. apply Permutation_length, sorted_by_perm. Qed.

(** The elements on which [lt] behaves as a strict order. *)
Variable ordered : A -> Prop.
Hypothesis lt_asym :
  forall x y, ordered x -> ordered y -> lt x y = true -> lt y x = false.
Hypothesis le_trans :
  forall x y z, ordered x -> ordered y -> ordered z ->
                le x y -> le y z -> le x z.

Lemma insert_sorted (x : A) (l : list A) :
  ordered x -> Forall ordered l ->
  StronglySorted le l -> StronglySorted le (Py.insert lt x l).
Proof.
  intros Hx Hl Hs. induction Hs as [|y l Hs IH Hy]; simpl.
  - repeat constructor.
  - inversion Hl as [|? ? Py Pl]; subst.
    destruct (lt y x) eqn:E.
    + constructor; auto.
      eapply Permutation_Forall; [symmetry; apply insert_perm|].
      constructor; auto. apply lt_asym; auto.
    + constructor; [constructor; auto|].
      constructor; [exact E|].
      rewrite Forall_forall in *. intros z Hz.
      apply (le_trans x y z); auto.
Qed.

Lemma sorted_by_sorted (l : list A) :
  Forall ordered l -> StronglySorted le (Py.sorted_by lt l).
Proof.
  induction 1 as [|x l Hx Hl IH]; simpl.
  - constructor.
  - apply insert_sorted; auto.
    eapply Permutation_Forall; [symmetry; apply sorted_by_perm | exact Hl].
Qed.

(** When two elements that are not below each other are the same
    element, an ascending list is determined by its elements. *)
Hypothesis le_antisym :
  forall x y, ordered x -> ordered y -> le x y -> le y x -> x = y.

Lemma le_refl (x : A) : ordered x -> le x x.
Proof.
  intros Hx. unfold le. destruct (lt x x) eqn:E; auto.
  now rewrite (lt_asym x x Hx Hx E) in E.
Qed.



End StableSort.

(** ** The order of binary64 numbers *)

Section FloatOrder.

(** A float that is a number, and one that is moreover not the negative
    zero (two zeros of different sign compare equal). *)
Definition number (x : float) : bool :=
  match Prim2SF x with
  | S754_nan => false
  | _ => true
  end.

Definition sample (x : float) : bool :=
  match Prim2SF x with
  | S754_nan | S754_zero true => false
  | _ => true
  end.


(** The position of a number on the line: its class, then exponent and
    mantissa, both negated below zero. *)
Definition rank (f : spec_float) : Z * Z * Z :=
  match f with
  | S754_zero _ | S754_nan => (0, 0, 0)
  | S754_infinity false => (2, 0, 0)
  | S754_infinity true => (-2, 0, 0)
  | S754_finite false m e => (1, e, Z.pos m)
  | S754_finite true m e => (-1, - e, Z.neg m)
  end.

Definition rank_lt (p q : Z * Z * Z) : Prop :=
  let '(a, b, c) := p in
  let '(a', b', c') := q in
  a < a' \/ (a = a' /\ (b < b' \/ (b = b' /\ c < c'))).

Lemma SFltb_rank (x y : spec_float) :
  x <> S754_nan -> y <> S754_nan ->
  (SFltb x y = true <-> rank_lt (rank x) (rank y)).
Proof.
  intros Hx Hy. unfold SFltb, SFcompare.
  destruct x as [sx|sx| |sx mx ex], y as [sy|sy| |sy my ey];
    try congruence; try destruct sx; try destruct sy; simpl;
    try (split; [discriminate | lia]);
    try (split; [lia | reflexivity]);
    change (PosDef.Pos.compare_cont Eq mx my) with (Pos.compare mx my);
    destruct (Z.compare_spec ex ey); try destruct (Pos.compare_spec mx my);
    simpl; split; try discriminate; try reflexivity; try lia.
Qed.



Lemma ltb_rank (x y : float) :
  number x = true -> number y = true ->
  ((x <? y)%float = true <-> rank_lt (rank (Prim2SF x)) (rank (Prim2SF y))).
Proof.
  unfold number. intros Hx Hy. rewrite ltb_spec.
  apply SFltb_rank; intros E; rewrite E in *; discriminate.
Qed.

Lemma ltb_asym (x y : float) :
  number x = true -> number y = true ->
  (x <? y)%float = true -> (y <? x)%float = false.
Proof.
  intros Hx Hy H. apply (ltb_rank x y Hx Hy) in H.
  destruct (y <? x)%float eqn:E; auto.
  apply (ltb_rank y x Hy Hx) in E.
  destruct (rank (Prim2SF x)) as [[a b] c], (rank (Prim2SF y)) as [[a' b'] c'].
  unfold rank_lt in *. lia.
Qed.

Lemma leb_trans (x y z : float) :
  number x = true -> number y = true -> number z = true ->
  (y <? x)%float = false -> (z <? y)%float = false -> (z <? x)%float = false.
Proof.
  intros Hx Hy Hz H1 H2.
  destruct (z <? x)%float eqn:E; auto.
  apply (ltb_rank z x Hz Hx) in E.
  assert (N1 : ~ rank_lt (rank (Prim2SF y)) (rank (Prim2SF x)))
    by (rewrite <- (ltb_rank y x Hy Hx); congruence).
  assert (N2 : ~ rank_lt (rank (Prim2SF z)) (rank (Prim2SF y)))
    by (rewrite <- (ltb_rank z y Hz Hy); congruence).
  destruct (rank (Prim2SF x)) as [[a b] c], (rank (Prim2SF y)) as [[a' b'] c'],
    (rank (Prim2SF z)) as [[a'' b''] c''].
  unfold rank_lt in *. lia.
Qed.


(** On numbers [sorted] gives an ascending rearrangement of the list. *)
Lemma sorted_ascending (values : list float) :
  Forall (fun x => number x = true) values ->
  StronglySorted (fun x y => (y <? x)%float = false) (Py.sorted values).
Proof.
  intros H. unfold Py.sorted.
  apply (sorted_by_sorted PrimFloat.ltb (fun x => number x = true)); auto.
  - intros; now apply ltb_asym.
  - intros x y z Hx Hy Hz; now apply leb_trans.
Qed.


End FloatOrder.

(** ** The driver: percentile *)

Section Percentile.

Import Py Driver.

Definition ascending (l : list float) : Prop :=
  StronglySorted (fun x y => (y <? x)%float = false) l.

(** C2.  [percentile] gives 0.0 on an empty list; on a list of [n > 0]
    values it gives the element of the ascending rearrangement of the
    list at the index [int((n - 1) * pct)], the product taken in binary64
    and truncated; and it gives 10 on [[10]] and 30 on
    [[10, 20, 30, 40]] at 0.95. *)
Theorem percentile_order_statistic :
  (forall pct, percentile [] pct = Return 0%float) /\
  (forall values pct,
     values <> [] ->
     percentile values pct
     = (idx <- to_int (to_float (len values - 1) * pct)%float ;;
        index (sorted values) idx)) /\
  (forall values,
     Permutation (sorted values) values /\
     (Forall (fun x => number x = true) values -> ascending (sorted values))) /\
  percentile [10%float] 0.95 = Return 10%float /\
  to_int (to_float 3 * 0.95)%float = Return 2 /\
  percentile [10; 20; 30; 40]%float 0.95 = Return 30%float.
Proof.
  split; [reflexivity|]. split; [|split; [|repeat split; vm_compute; reflexivity]].
  - intros [|x values] pct Hne; [congruence|].
    unfold percentile, len, sorted. now rewrite sorted_by_length.
  - intros values. split.
    + apply sorted_by_perm.
    + apply sorted_ascending.
Qed.

End Percentile.

(** ** The driver: the accumulation over completed calls *)

Section Tally.

Import Py Driver.

Definition ok_of (r : bool * float * Z) : bool := fst (fst r).
Definition latency_of (r : bool * float * Z) : float := snd (fst r).

(** The tally after the loop has gone through [results]. *)
Definition counted (t : tally) (results : list (bool * float * Z)) : tally :=
  fold_left count results t.

Lemma counted_spec (results : list (bool * float * Z)) :
  forall t,
    total (counted t results) = total t + len results /\
    success (counted t results) = success t + len (filter ok_of results) /\
    latencies (counted t results) = latencies t ++ map latency_of results.
Proof.
  unfold counted, len.
  induction results as [|[[ok latency] status] rest IH]; intros t.
  - simpl. rewrite app_nil_r. repeat split; lia.
  - cbn [fold_left].
    destruct (IH (count t (ok, latency, status))) as (Ht & Hs & Hl).
    rewrite Ht, Hs, Hl. cbn [count total success latencies filter map].
    unfold ok_of at 2. cbn [fst]. rewrite <- app_assoc.
    destruct ok; cbn [List.length app]; repeat split; lia.
Qed.


(** ... and only then. *)
Lemma drain_returns (completed : list (outcome (bool * float * Z))) :
  forall t t',
    drain t completed = Return t' ->
    exists results,
      completed = map Return results /\ t' = counted t results.
Proof.
  induction completed as [|[r|e] rest IH]; intros t t' H.
  - exists []. injection H as <-. split; reflexivity.
  - cbn [drain bind] in H. destruct (IH _ _ H) as (results & -> & ->).
    exists (r :: results). split; reflexivity.
  - discriminate H.
Qed.

(** It raises what the first call to have raised, in completion order,
    raised. *)
Lemma drain_raises (completed : list (outcome (bool * float * Z))) :
  forall t e,
    drain t completed = Raise e <->
    exists results rest,
      completed = map Return results ++ Raise e :: rest.
Proof.
  induction completed as [|[r|e'] rest IH]; intros t e.
  - split; [discriminate|]. intros (results & rest' & H).
    destruct results; discriminate H.
  - cbn [drain bind]. rewrite IH. split.
    + intros (results & rest' & ->). exists (r :: results), rest'. reflexivity.
    + intros (results & rest' & H). destruct results as [|r' results].
      * discriminate H.
      * injection H as _ ->. exists results, rest'. reflexivity.
  - cbn [drain bind]. split.
    + intros [= ->]. exists [], rest. reflexivity.
    + intros (results & rest' & H). destruct results as [|r' results].
      * now injection H as ->.
      * discriminate H.
Qed.


Lemma drain_spec (completed : list (outcome (bool * float * Z))) (t t' : tally) :
  drain t completed = Return t' ->
  exists results,
    completed = map Return results /\
    total t' = total t + len results /\
    success t' = success t + len (filter ok_of results) /\
    latencies t' = latencies t ++ map latency_of results.
Proof.
  intros H. destruct (drain_returns _ _ _ H) as (results & -> & ->).
  exists results. split; [reflexivity|]. apply counted_spec.
Qed.


Lemma as_completed_all {R} (futs : list R) :
  as_completed futs (seq 0 (List.length futs)) = futs.
Proof.
  unfold as_completed.
  enough (H : forall done rest,
             flat_map (fun i => match nth_error (done ++ rest) i with
                                | Some r => [r]
                                | None => []
                                end) (seq (List.length done) (List.length rest))
             = rest) by apply (H [] futs).
  intros done rest. revert done.
  induction rest as [|r rest IH]; intros done; simpl; auto.
  rewrite nth_error_app2, Nat.sub_diag by lia. simpl. f_equal.
  specialize (IH (done ++ [r])).
  rewrite <- app_assoc, length_app, Nat.add_1_r in IH. exact IH.
Qed.

Lemma as_completed_perm {R} (futs : list R) (order : list nat) :
  Permutation order (seq 0 (List.length futs)) ->
  Permutation (as_completed futs order) futs.
Proof.
  intros Hp. rewrite <- (as_completed_all futs) at 2.
  unfold as_completed. now apply Permutation_flat_map.
Qed.




End Tally.

(** ** The driver: register statistics *)

Section RegisterStatistics.

Import Py Driver.

Variable loads : string -> outcome json.




End RegisterStatistics.

Definition sample_args : Driver.args :=
  {| Driver.master_url := "http://127.0.0.1:8080";
     Driver.relay_count := 2;
     Driver.soak_seconds := 1;
     Driver.interval_seconds := 1;
     Driver.timeout_seconds := 3;
     Driver.workers := 16;
     Driver.min_success_rate := 0.98;
     Driver.max_register_p95_ms := 400;
     Driver.max_heartbeat_p95_ms := 450 |}.

(** A response whose body arrives and which closes. *)
Definition answer (status : Z) (text : string) : Driver.response :=
  {| Driver.status := status;
     Driver.read := Py.Return text;
     Driver.closed := Py.Return tt |}.

(** A master that answers every second call and lists one of the two
    relays; the calls complete in reverse order; one wave of half a
    second fits into the soak. *)
Definition sample_world : Driver.world :=
  {| Driver.token := "0123abcd";
     Driver.register_attempt := fun i =>
       {| Driver.request := Py.Return tt;
          Driver.started := 1;
          Driver.urlopen :=
            if Nat.even i
            then Py.Return (answer 200 "{}")
            else Py.Raise Py.URLError;
          Driver.finished := 1.25;
          Driver.handled := 1.5;
          Driver.error_body := Py.Return EmptyString |};
     Driver.register_order := [1; 0]%nat;
     Driver.monotonic := [5; 5.5; 5.5; 6; 7.5]%float;
     Driver.heartbeat_load := fun _ _ => 40;
     Driver.heartbeat_attempt := fun _ i =>
       {| Driver.request := Py.Return tt;
          Driver.started := 2;
          Driver.urlopen :=
            if Nat.even i
            then Py.Return (answer 200 "{}")
            else Py.Raise (Py.HTTPError 503);
          Driver.finished := 2.125;
          Driver.handled := 2.25;
          Driver.error_body := Py.Return "busy"%string |};
     Driver.heartbeat_order := fun _ => [1; 0]%nat;
     Driver.listing := Py.Return (answer 200 "[..]") |}.

Definition sample_loads (text : string) : Py.outcome Py.json :=
  Py.Return (Py.JList [Py.JDict [("relay_id"%string, Py.JStr "load-0123abcd-000")];
                       Py.JInt 3]).


(** ** The driver: the soak loop *)

Section Soak.

Import Py Driver.

Definition requested_relay (call : string * json) : string :=
  match snd call with
  | JDict fields =>
      match dict_get fields "relay_id" with
      | JStr relay_id => relay_id
      | _ => EmptyString
      end
  | _ => EmptyString
  end.

(** What the specification asks of one wave: it started while the soak
    was not over, it posted one heartbeat per relay of the run, and the
    sleep after it is the positive part of [interval - wave_elapsed]. *)
Definition wave_ok (a : args) (ids : list string) (start : float) (wv : wave)
    : Prop :=
  float_lt_int (tested_at wv - start)%float (soak_seconds a) = true /\
  map requested_relay (calls wv) = ids /\
  Forall (fun call => fst call = (master_url a ++ "/v1/relays/heartbeat")%string)
         (calls wv) /\
  (let sleep_for :=
     (interval_seconds a - (wave_end wv - wave_start wv))%float in
   slept wv = if (0 <? sleep_for)%float then Some sleep_for else None) /\
  (forall d, slept wv = Some d -> (0 <? d)%float = true).

(** The clock readings a list of waves accounts for. *)
Definition readings (waves : list wave) : list float :=
  flat_map (fun wv => [tested_at wv; wave_start wv; wave_end wv]) waves.

Lemma heartbeat_requests_relays (a : args) (w : world) (ids : list string)
    (n : nat) :
  map requested_relay (heartbeat_requests a w ids n) = ids /\
  Forall (fun call => fst call = (master_url a ++ "/v1/relays/heartbeat")%string)
         (heartbeat_requests a w ids n).
Proof.
  unfold heartbeat_requests. generalize 0%nat as k.
  induction ids as [|relay_id ids IH]; intros k; simpl.
  - split; constructor.
  - destruct (IH (S k)) as [Hm Hf]. split.
    + f_equal. exact Hm.
    + constructor; auto.
Qed.

Lemma soak_loop_waves (a : args) (w : world) (ids : list string) (start : float) :
  forall (fuel : nat) (clock : list float) (n : nat) (t : tally) waves t',
    (List.length clock <= fuel)%nat ->
    soak_loop a w ids start clock n t = Some (Return (waves, t')) ->
    Forall (wave_ok a ids start) waves /\
    exists final rest,
      clock = readings waves ++ final :: rest /\
      float_lt_int (final - start)%float (soak_seconds a) = false.
Proof.
  induction fuel as [|fuel IH]; intros clock n t waves t' Hlen Hrun.
  - destruct clock; [discriminate | simpl in Hlen; lia].
  - destruct clock as [|now clock1]; [discriminate|].
    cbn [soak_loop] in Hrun.
    destruct (float_lt_int (now - start)%float (soak_seconds a)) eqn:Htest.
    + destruct clock1 as [|ws clock2]; [discriminate|].
      destruct (drain t _) as [t1|e]; [|discriminate].
      destruct clock2 as [|we clock2]; [discriminate|].
      destruct (soak_loop a w ids start clock2 (S n) _)
        as [[[waves' t'']|e]|] eqn:Hrest; try discriminate.
      injection Hrun as <- <-.
      apply IH in Hrest; [|simpl in Hlen; lia].
      destruct Hrest as (Hwaves & final & rest & -> & Hfinal).
      split.
      * constructor; [|exact Hwaves].
        destruct (heartbeat_requests_relays a w ids n) as [Hrel Hurl].
        unfold wave_ok. cbn [tested_at calls slept wave_end wave_start].
        repeat split; auto.
        intros d. destruct (0 <? _)%float eqn:E; [|discriminate].
        now intros [= <-].
      * exists final, rest. split; [reflexivity | exact Hfinal].
    + injection Hrun as <- <-. split; [constructor|].
      exists now, clock1. split; [reflexivity | exact Htest].
Qed.


End Soak.


(** ** The driver: a run without a heartbeat wave *)

Section NoWave.

Import Py Driver.

Variable round : float -> Z -> float.
Variable mean : list float -> float.
Variable loads : string -> outcome json.

Definition no_calls : tally := {| total := 0; success := 0; latencies := [] |}.


End NoWave.

Definition plain_round (x : float) (ndigits : Z) : float := x.

Definition no_mean (values : list float) : float := 0%float.

Definition no_soak_args : Driver.args :=
  {| Driver.master_url := Driver.master_url sample_args;
     Driver.relay_count := Driver.relay_count sample_args;
     Driver.soak_seconds := 0;
     Driver.interval_seconds := Driver.interval_seconds sample_args;
     Driver.timeout_seconds := Driver.timeout_seconds sample_args;
     Driver.workers := Driver.workers sample_args;
     Driver.min_success_rate := Driver.min_success_rate sample_args;
     Driver.max_register_p95_ms := Driver.max_register_p95_ms sample_args;
     Driver.max_heartbeat_p95_ms := Driver.max_heartbeat_p95_ms sample_args |}.


(** ** The driver: the exit status of the sample runs *)

(** The sample run ends with a verdict. *)
Lemma slo_exit_code_witness :
  match Driver.main plain_round no_mean sample_loads sample_args sample_world with
  | Some r => Driver.exit_status r = 0 \/ Driver.exit_status r = 1
  | None => False
  end.
Proof.
  destruct (Driver.main plain_round no_mean sample_loads sample_args sample_world)
    as [r|] eqn:E.
  - destruct (slo_exit_code plain_round no_mean sample_loads sample_args
                sample_world r E)
      as [(st & out & _ & _ & _ & H & _) | (e & _ & _ & H)];
      [exact H | right; exact H].
  - vm_compute in E. discriminate E.
Defined.

(** A master that answers every call with a 200 in time, and goes away
    before the listing request. *)
Definition vanishing_world : Driver.world :=
  {| Driver.token := Driver.token sample_world;
     Driver.register_attempt := fun _ =>
       {| Driver.request := Py.Return tt;
          Driver.started := 1;
          Driver.urlopen := Py.Return (answer 200 "{}");
          Driver.finished := 1.25;
          Driver.handled := 1.5;
          Driver.error_body := Py.Return EmptyString |};
     Driver.register_order := Driver.register_order sample_world;
     Driver.monotonic := Driver.monotonic sample_world;
     Driver.heartbeat_load := Driver.heartbeat_load sample_world;
     Driver.heartbeat_attempt := fun _ _ =>
       {| Driver.request := Py.Return tt;
          Driver.started := 2;
          Driver.urlopen := Py.Return (answer 200 "{}");
          Driver.finished := 2.125;
          Driver.handled := 2.25;
          Driver.error_body := Py.Return EmptyString |};
     Driver.heartbeat_order := Driver.heartbeat_order sample_world;
     Driver.listing := Py.Raise Py.URLError |}.

(** The process ends with status 1 although none of the conditions
    holds: both success rates are 1.0, against a threshold of 0.98, the
    register p95 is 250 ms against 400 and the heartbeat p95 125 ms
    against 450, and there is no listing in which a relay could be
    missing.  Nothing is printed: the exception of the listing request
    leaves [main] before the summary. *)
Lemma exit_without_violation :
  Driver.main plain_round no_mean sample_loads sample_args vanishing_world
  = Some (Py.Raise Py.URLError) /\
  Driver.exit_status (Py.Raise Py.URLError) = 1 /\
  exists registered waves beats,
    Driver.register_phase sample_args vanishing_world 2
      (Driver.relay_ids "0123abcd" 2)
    = Py.Return registered /\
    Driver.soak_phase sample_args vanishing_world (Driver.relay_ids "0123abcd" 2)
    = Some (Py.Return (waves, beats)) /\
    Py.truediv (Driver.success registered) 2 = 1%float /\
    Py.truediv (Driver.success beats) (Driver.total beats) = 1%float /\
    (1 <? Driver.min_success_rate sample_args)%float = false /\
    Driver.percentile (Driver.latencies registered) 0.95 = Py.Return 250%float /\
    (Driver.max_register_p95_ms sample_args <? 250)%float = false /\
    Driver.percentile (Driver.latencies beats) 0.95 = Py.Return 125%float /\
    (Driver.max_heartbeat_p95_ms sample_args <? 125)%float = false.
Proof.
  split; [vm_compute; reflexivity|]. split; [reflexivity|].
  eexists _, _, _.
  split; [vm_compute; reflexivity|]. split; [vm_compute; reflexivity|].
  repeat split; vm_compute; reflexivity.
Qed.

(** ** The driver: transport failures *)

Section TransportFailures.

Import Py Driver.

Variable round : float -> Z -> float.
Variable mean : list float -> float.
Variable loads : string -> outcome json.


Definition elapsed_ms (at' : attempt) : float :=
  ((finished at' - started at') * 1000)%float.






Lemma get_json_propagates (url : string) (timeout : float) (e : exn) :
  get_json loads url timeout (Raise e) = Raise e.
Proof. reflexivity. Qed.





End TransportFailures.





(** * Binary64 rounding

    What the products of [percentile] need of IEEE arithmetic, proved
    from the specification of the primitive floats: rounding to nearest
    never carries a value across an integer that binary64 represents. *)

Section Rounding.

Lemma digits2_pos_bounds (p : positive) :
  2 ^ (Z.pos (digits2_pos p) - 1) <= Z.pos p < 2 ^ Z.pos (digits2_pos p).
Proof.
  induction p as [p IH|p IH|]; cbn [digits2_pos].
  - rewrite Pos2Z.inj_succ, (Pos2Z.inj_xI p).
    replace (Z.succ (Z.pos (digits2_pos p)) - 1)
      with (Z.succ (Z.pos (digits2_pos p) - 1)) by lia.
    rewrite !Z.pow_succ_r by lia.
    generalize dependent (2 ^ (Z.pos (digits2_pos p) - 1)).
    generalize (2 ^ Z.pos (digits2_pos p)). lia.
  - rewrite Pos2Z.inj_succ, (Pos2Z.inj_xO p).
    replace (Z.succ (Z.pos (digits2_pos p)) - 1)
      with (Z.succ (Z.pos (digits2_pos p) - 1)) by lia.
    rewrite !Z.pow_succ_r by lia.
    generalize dependent (2 ^ (Z.pos (digits2_pos p) - 1)).
    generalize (2 ^ Z.pos (digits2_pos p)). lia.
  - simpl. lia.
Qed.

Definition sticky (r : shr_record) : bool := shr_r r || shr_s r.

(** [b] is [a] shifted right by [k] bits: the mantissa is the quotient,
    and the two bits below it are set only when something was lost. *)
Definition shifted (k : Z) (a b : shr_record) : Prop :=
  shr_m b = shr_m a / 2 ^ k /\
  (sticky b = true -> sticky a = true \/ shr_m a mod 2 ^ k <> 0).

Lemma shr_1_shifted (a : shr_record) : 0 <= shr_m a -> shifted 1 a (shr_1 a).
Proof.
  destruct a as [m r s]. cbn [shr_m]. intros Hm. unfold shifted, sticky.
  destruct m as [|[p|p|]|p]; try lia; cbn [shr_1 shr_m shr_r shr_s];
    change (2 ^ 1) with 2.
  - split; [reflexivity|]. rewrite orb_false_l. auto.
  - rewrite (Pos2Z.inj_xI p). split.
    + apply (Z.div_unique _ _ _ 1); lia.
    + intros _. right.
      assert (E : 1 = (2 * Z.pos p + 1) mod 2)
        by (apply (Z.mod_unique _ _ (Z.pos p)); lia).
      lia.
  - rewrite (Pos2Z.inj_xO p). split.
    + apply (Z.div_unique _ _ _ 0); lia.
    + rewrite orb_false_l. auto.
  - split; [reflexivity|]. intros _. right. discriminate.
Qed.

Lemma shifted_compose (j k : Z) (a b c : shr_record) :
  0 <= j -> 0 <= k ->
  shifted j a b -> shifted k b c -> shifted (j + k) a c.
Proof.
  intros Hj Hk [Hb Sb] [Hc Sc]. unfold shifted.
  assert (Pj : 0 < 2 ^ j) by (apply Z.pow_pos_nonneg; lia).
  assert (Pk : 0 < 2 ^ k) by (apply Z.pow_pos_nonneg; lia).
  rewrite Z.pow_add_r by lia. split.
  - rewrite Hc, Hb. apply Z.div_div; lia.
  - intros Hs.
    destruct (Z.eq_dec (shr_m a mod (2 ^ j * 2 ^ k)) 0) as [E|]; [|auto].
    apply Z.mod_divide in E; [|lia]. destruct E as [q Hq].
    destruct (Sc Hs) as [Hsb|Hm].
    + destruct (Sb Hsb) as [|Hm]; [auto|].
      exfalso. apply Hm. rewrite Hq.
      replace (q * (2 ^ j * 2 ^ k)) with (q * 2 ^ k * 2 ^ j) by ring.
      apply Z.mod_mul. lia.
    + exfalso. apply Hm. rewrite Hb, Hq.
      replace (q * (2 ^ j * 2 ^ k)) with (q * 2 ^ k * 2 ^ j) by ring.
      rewrite Z.div_mul by lia. apply Z.mod_mul. lia.
Qed.

Lemma shifted_nonneg (k : Z) (a b : shr_record) :
  0 <= k -> 0 <= shr_m a -> shifted k a b -> 0 <= shr_m b.
Proof.
  intros Hk Ha [Hb _]. rewrite Hb. apply Z.div_pos; [lia|].
  apply Z.pow_pos_nonneg; lia.
Qed.

Lemma iter_pos_shifted (p : positive) :
  forall a, 0 <= shr_m a -> shifted (Z.pos p) a (iter_pos shr_1 p a).
Proof.
  induction p as [p IH|p IH|]; intros a Ha; cbn [iter_pos].
  - pose proof (shr_1_shifted a Ha) as H1.
    pose proof (shifted_nonneg 1 _ _ ltac:(lia) Ha H1) as N1.
    pose proof (IH _ N1) as H2.
    pose proof (shifted_nonneg (Z.pos p) _ _ ltac:(lia) N1 H2) as N2.
    pose proof (IH _ N2) as H3.
    rewrite (Pos2Z.inj_xI p).
    replace (2 * Z.pos p + 1) with (1 + Z.pos p + Z.pos p) by lia.
    eapply shifted_compose; [lia | lia | | exact H3].
    eapply shifted_compose; [lia | lia | exact H1 | exact H2].
  - pose proof (IH _ Ha) as H2.
    pose proof (shifted_nonneg (Z.pos p) _ _ ltac:(lia) Ha H2) as N2.
    pose proof (IH _ N2) as H3.
    rewrite (Pos2Z.inj_xO p).
    replace (2 * Z.pos p) with (Z.pos p + Z.pos p) by lia.
    eapply shifted_compose; [lia | lia | exact H2 | exact H3].
  - now apply shr_1_shifted.
Qed.

Lemma shr_shifted (a : shr_record) (e n : Z) :
  0 <= shr_m a ->
  shifted (Z.max n 0) a (fst (shr a e n)) /\ snd (shr a e n) = e + Z.max n 0.
Proof.
  intros Ha. unfold shr. destruct n as [|p|p]; cbn [fst snd].
  - split; [|lia]. unfold shifted. change (2 ^ Z.max 0 0) with 1.
    rewrite Z.div_1_r. auto.
  - rewrite Z.max_l by lia. split; [|reflexivity]. now apply iter_pos_shifted.
  - split; [|lia]. unfold shifted. change (2 ^ Z.max (Z.neg p) 0) with 1.
    rewrite Z.div_1_r. auto.
Qed.

Lemma round_nearest_even_step (r : shr_record) :
  let q := shr_m r in
  let q' := round_nearest_even q (loc_of_shr_record r) in
  (q' = q \/ (q' = q + 1 /\ sticky r = true)).
Proof.
  destruct r as [m [] []]; cbn; try destruct (IntDef.Z.even m); auto.
Qed.

Lemma pow2_pos (k : Z) : 0 <= k -> 0 < 2 ^ k.
Proof. intros. apply Z.pow_pos_nonneg; lia. Qed.

Lemma shifted_floor (k : Z) (a b : shr_record) :
  0 <= k -> 0 <= shr_m a -> shifted k a b ->
  0 <= shr_m b /\
  shr_m b * 2 ^ k <= shr_m a /\
  (sticky b = true -> sticky a = false -> shr_m b * 2 ^ k < shr_m a).
Proof.
  intros Hk Ha [Hb Hs].
  pose proof (pow2_pos k Hk) as Hp.
  pose proof (Z.div_mod (shr_m a) (2 ^ k) ltac:(lia)) as Hdm.
  pose proof (Z.mod_pos_bound (shr_m a) (2 ^ k) Hp) as Hmod.
  rewrite <- Hb in Hdm.
  assert (0 <= shr_m b) by (rewrite Hb; apply Z.div_pos; lia).
  split; [assumption|]. split; [nia|].
  intros Sb Sa. destruct (Hs Sb) as [Sa'|Hne]; [congruence|]. nia.
Qed.

(** Rounding a positive value that does not exceed an integer [B <= 2^53]
    gives a value that does not exceed [B] either: the result is a zero
    or a finite number [m * 2^e] with [m * 2^e <= B], both sides scaled
    by [2^k] to stay in the integers. *)
Lemma round_below (P : positive) (E B k : Z) :
  0 <= B <= 2 ^ 53 -> 0 <= k -> 0 <= E + k ->
  Z.pos P * 2 ^ (E + k) <= B * 2 ^ k ->
  match binary_round_aux prec emax false (Z.pos P) E loc_Exact with
  | S754_zero false => True
  | S754_finite false m e => E <= e /\ Z.pos m * 2 ^ (e + k) <= B * 2 ^ k
  | _ => False
  end.
Proof.
  intros HB Hk HEk Hval.
  unfold binary_round_aux, shr_fexp. cbn [shr_record_of_loc].
  set (a := {| shr_m := Z.pos P; shr_r := false; shr_s := false |}).
  set (n1 := fexp prec emax (Zdigits2 (Z.pos P) + E) - E).
  assert (Ha : 0 <= shr_m a) by (cbn; lia).
  destruct (shr_shifted a E n1 Ha) as [S1 E1].
  destruct (shr a E n1) as [r1 e1]. cbn [fst snd] in S1, E1.
  assert (Hs1 : 0 <= Z.max n1 0) by lia.
  destruct (shifted_floor (Z.max n1 0) a r1 Hs1 Ha S1) as (Hq0 & Hfloor & Hstrict).
  pose proof (round_nearest_even_step r1) as Hq. cbv zeta in Hq.
  set (q := shr_m r1) in *.
  set (q' := round_nearest_even q (loc_of_shr_record r1)) in *.
  set (b := {| shr_m := q'; shr_r := false; shr_s := false |}).
  set (n2 := fexp prec emax (Zdigits2 q' + e1) - e1).
  assert (Hq' : 0 <= q') by (destruct Hq as [->|[-> _]]; lia).
  destruct (shr_shifted b e1 n2 Hq') as [S2 E2].
  destruct (shr b e1 n2) as [r2 e2]. cbn [fst snd] in S2, E2.
  assert (Hs2 : 0 <= Z.max n2 0) by lia.
  destruct (shifted_floor (Z.max n2 0) b r2 Hs2 Hq' S2) as (Hm0 & Hfloor2 & _).
  cbn [shr_m a b] in Hfloor, Hfloor2, Hstrict.
  set (s1 := Z.max n1 0) in *. set (s2 := Z.max n2 0) in *.
  pose proof (pow2_pos _ Hs1) as PS1. pose proof (pow2_pos _ Hs2) as PS2.
  pose proof (pow2_pos _ HEk) as PT. pose proof (pow2_pos _ Hk) as PK.
  assert (Hkey : q' * 2 ^ (e1 + k) <= B * 2 ^ k).
  { subst e1. replace (E + s1 + k) with (s1 + (E + k)) by lia.
    rewrite Z.pow_add_r by lia.
    destruct Hq as [->|[-> Hst]].
    - nia.
    - specialize (Hstrict Hst eq_refl).
      destruct (Z_le_gt_dec (E + s1) 0) as [Hneg|Hpos].
      + (* the result's exponent is not positive: B is a multiple of its unit *)
        set (t := - (E + s1)). assert (Ht : 0 <= t) by (unfold t; lia).
        pose proof (pow2_pos _ Ht) as PU.
        assert (EK : 2 ^ k = 2 ^ s1 * 2 ^ (E + k) * 2 ^ t).
        { rewrite <- !Z.pow_add_r by lia. f_equal. unfold t. lia. }
        rewrite EK in *.
        assert (H1 : q * 2 ^ s1 * 2 ^ (E + k) < Z.pos P * 2 ^ (E + k))
          by (apply Z.mul_lt_mono_pos_r; lia).
        assert (H2 : q * (2 ^ s1 * 2 ^ (E + k)) < B * 2 ^ t * (2 ^ s1 * 2 ^ (E + k)))
          by lia.
        apply Z.mul_lt_mono_pos_r in H2; [|lia].
        assert (H3 : (q + 1) * (2 ^ s1 * 2 ^ (E + k))
                     <= B * 2 ^ t * (2 ^ s1 * 2 ^ (E + k)))
          by (apply Z.mul_le_mono_nonneg_r; lia).
        lia.
      + (* a positive exponent: the mantissa is full, the value at least 2^53 *)
        exfalso.
        assert (Hn1p : 0 < n1).
        { apply Z.nle_gt. intros Hle.
          destruct S1 as [S1 _]. cbn [shr_m a] in S1. fold q in S1.
          unfold s1 in Hstrict, S1. rewrite Z.max_r in Hstrict, S1 by lia.
          change (2 ^ 0) with 1 in Hstrict, S1. rewrite Z.div_1_r in S1. lia. }
        assert (Hn1 : n1 = Z.pos (digits2_pos P) - 53).
        { unfold s1, n1, fexp, SpecFloat.emin, prec, emax in Hpos, Hn1p |- *.
          cbn [Zdigits2] in Hpos, Hn1p |- *. lia. }
        assert (Es1 : s1 = Z.pos (digits2_pos P) - 53) by (unfold s1; lia).
        pose proof (digits2_pos_bounds P) as [Hlow _].
        replace (Z.pos (digits2_pos P) - 1) with (s1 + 52) in Hlow by lia.
        rewrite Z.pow_add_r in Hlow by lia.
        assert (H52 : 2 ^ 52 <= q).
        { apply Z.nlt_ge. intros Hlt.
          assert (q + 1 <= 2 ^ 52) by lia.
          pose proof (Z.div_mod (Z.pos P) (2 ^ s1) ltac:(lia)) as Hdm.
          pose proof (Z.mod_pos_bound (Z.pos P) (2 ^ s1) PS1) as Hmod.
          destruct S1 as [S1 _]. cbn [shr_m a] in S1. fold q in S1.
          rewrite <- S1 in Hdm. nia. }
        assert (HE1 : 2 ^ (E + s1 + k) = 2 ^ (E + s1) * 2 ^ k)
          by (apply Z.pow_add_r; lia).
        assert (HE2 : 2 ^ (E + s1 + k) = 2 ^ s1 * 2 ^ (E + k))
          by (rewrite <- Z.pow_add_r by lia; f_equal; lia).
        assert (H2 : 2 <= 2 ^ (E + s1)).
        { change 2 with (2 ^ 1) at 1. apply Z.pow_le_mono_r; lia. }
        assert (q * 2 ^ (E + s1) < B) by nia.
        change (2 ^ 53) with (2 ^ 52 * 2) in HB. nia. }
  assert (Hres : shr_m r2 * 2 ^ (e2 + k) <= B * 2 ^ k).
  { subst e2. replace (e1 + s2 + k) with (s2 + (e1 + k)) by lia.
    assert (0 <= e1 + k) by lia.
    rewrite Z.pow_add_r by lia.
    pose proof (pow2_pos (e1 + k) ltac:(lia)). nia. }
  destruct (shr_m r2) as [|m|m] eqn:Em; [exact I| |lia].
  assert (He2 : e2 <= 53).
  { apply Z.nlt_ge. intros Hgt.
    assert (2 ^ (53 + k) < 2 ^ (e2 + k)) by (apply Z.pow_lt_mono_r; lia).
    rewrite Z.pow_add_r in H by lia. nia. }
  replace (e2 <=? emax - prec) with true
    by (symmetry; apply Z.leb_le; unfold emax, prec; lia).
  split; [lia | exact Hres].
Qed.

Lemma to_float_spec (m : Z) :
  0 <= m < 2 ^ 63 ->
  Prim2SF (Py.to_float m) = binary_normalize prec emax m 0 false.
Proof.
  intros Hm. unfold Py.to_float. apply Prim2SF_SF2Prim.
  rewrite <- (Z.mod_small m Uint63.wB) by (change Uint63.wB with (2 ^ 63); lia).
  rewrite <- Uint63.of_Z_spec, <- of_uint63_spec.
  apply Prim2SF_valid.
Qed.

Lemma shl_align_spec (mx : positive) (ex ex' k : Z) :
  0 <= ex' + k -> 0 <= ex + k ->
  let '(mz, ez) := shl_align mx ex ex' in
  ez = Z.min ex ex' /\ Z.pos mz * 2 ^ (ez + k) = Z.pos mx * 2 ^ (ex + k).
Proof.
  intros H1 H2. unfold shl_align.
  destruct (ex' - ex) as [|d|d] eqn:Ed.
  - split; [lia | reflexivity].
  - split; [lia | reflexivity].
  - pose proof (Pos2Z.neg_is_neg d) as Hd.
    assert (Ex : ex = Z.pos d + ex') by (rewrite <- Pos2Z.opp_neg; lia).
    split; [lia|].
    change (PosDef.Pos.iter xO mx d) with (Zpower.shift_pos d mx).
    rewrite Zpower.shift_pos_correct, Z.pow_pos_fold.
    replace (ex + k) with (Z.pos d + (ex' + k)) by lia.
    rewrite (Z.pow_add_r 2 (Z.pos d) (ex' + k)) by lia. ring.
Qed.

(** The binary64 nearest to an integer [0 <= m <= 2^53] is not above it. *)
Lemma to_float_below (m k : Z) :
  0 <= m <= 2 ^ 53 -> 1074 <= k ->
  match Prim2SF (Py.to_float m) with
  | S754_zero false => True
  | S754_finite false mm em =>
      - 1074 <= em /\ Z.pos mm * 2 ^ (em + k) <= m * 2 ^ k
  | _ => False
  end.
Proof.
  intros Hm Hk.
  rewrite to_float_spec
    by (split; [lia|]; apply Z.le_lt_trans with (2 ^ 53); [lia | reflexivity]).
  destruct m as [|p|p]; [exact I| |lia].
  cbn [binary_normalize]. unfold binary_round.
  set (ex' := fexp prec emax (Z.pos (digits2_pos p) + 0)).
  assert (Hex' : - 1074 <= ex')
    by (unfold ex', fexp, SpecFloat.emin, prec, emax; lia).
  pose proof (shl_align_spec p 0 ex' k ltac:(lia) ltac:(lia)) as Hal.
  destruct (shl_align p 0 ex') as [mz ez]. destruct Hal as [Hez Hv].
  pose proof (round_below mz ez (Z.pos p) k Hm ltac:(lia) ltac:(lia)) as Hr.
  rewrite Hv, Z.add_0_l in Hr. specialize (Hr (Z.le_refl _)).
  destruct (binary_round_aux prec emax false (Z.pos mz) ez loc_Exact)
    as [[]|[]| |[] mm em]; auto.
  destruct Hr. split; [lia | assumption].
Qed.

Lemma valid_finite (s : bool) (m : positive) (e : Z) :
  valid_binary (S754_finite s m e) = true -> - 1074 <= e /\ Z.pos m < 2 ^ 53.
Proof.
  unfold SpecFloat.valid_binary, bounded, canonical_mantissa.
  intros Hv. apply andb_prop in Hv. destruct Hv as [Hc _].
  apply Z.eqb_eq in Hc. unfold fexp, SpecFloat.emin, prec, emax in Hc.
  pose proof (digits2_pos_bounds m) as [_ Hup].
  split; [lia|].
  eapply Z.lt_le_trans; [exact Hup|]. apply Z.pow_le_mono_r; lia.
Qed.

Definition one_sf : spec_float := S754_finite false 4503599627370496 (-52).

Lemma one_sf_spec : Prim2SF 1 = one_sf.
Proof. vm_compute. reflexivity. Qed.

Lemma zero_sf_spec : Prim2SF 0 = S754_zero false.
Proof. vm_compute. reflexivity. Qed.

Lemma leb_one (m : positive) (e : Z) :
  SFleb (S754_finite false m e) one_sf = true ->
  e < -52 \/ (e = -52 /\ Z.pos m <= 4503599627370496).
Proof.
  unfold SFleb, SFcompare, one_sf. intros H.
  destruct (e ?= -52) eqn:Ec.
  - right. apply Z.compare_eq_iff in Ec. split; [exact Ec|].
    destruct (PosDef.Pos.compare_cont Eq m 4503599627370496) eqn:Em.
    + apply Pos.compare_eq in Em. rewrite Em. apply Z.le_refl.
    + apply Z.lt_le_incl. exact (Pos2Z.pos_lt_pos _ _ Em).
    + discriminate H.
  - left. exact Ec.
  - discriminate H.
Qed.

Lemma pow2_52 : 2 ^ 52 = 4503599627370496.
Proof. vm_compute. reflexivity. Qed.

(** A float between 0 and 1 is a zero or a positive number [m * 2^e] with
    [m * 2^e <= 1]. *)
Lemma unit_interval (pct : float) (k : Z) :
  (0 <=? pct)%float = true -> (pct <=? 1)%float = true -> 1074 <= k ->
  match Prim2SF pct with
  | S754_zero _ => True
  | S754_finite false mp ep => - 1074 <= ep /\ Z.pos mp * 2 ^ (ep + k) <= 2 ^ k
  | _ => False
  end.
Proof.
  intros H0 H1 Hk. rewrite FloatAxioms.leb_spec in H0, H1.
  rewrite zero_sf_spec in H0. rewrite one_sf_spec in H1.
  pose proof (Prim2SF_valid pct) as Hv.
  destruct (Prim2SF pct) as [s|[]| |[] mp ep]; try exact I; try discriminate.
  apply valid_finite in Hv. destruct Hv as [Hep Hmp].
  split; [exact Hep|].
  apply leb_one in H1. clear H0.
  destruct H1 as [Hlt|[-> Hle]].
  - replace k with (53 + (-53 + k)) at 2 by lia.
    rewrite (Z.pow_add_r 2 53 (-53 + k)) by lia.
    assert (2 ^ (ep + k) <= 2 ^ (-53 + k)) by (apply Z.pow_le_mono_r; lia).
    pose proof (pow2_pos (ep + k) ltac:(lia)).
    apply Z.le_trans with (2 ^ 53 * 2 ^ (ep + k)).
    + apply Z.mul_le_mono_nonneg_r; lia.
    + apply Z.mul_le_mono_nonneg_l; [|assumption]. apply Z.pow_nonneg. lia.
  - rewrite <- pow2_52 in Hle.
    replace k with (52 + (-52 + k)) at 2 by lia.
    rewrite (Z.pow_add_r 2 52 (-52 + k)) by lia.
    pose proof (pow2_pos (-52 + k) ltac:(lia)).
    apply Z.mul_le_mono_nonneg_r; [lia | exact Hle].
Qed.

Lemma product_below (m : Z) (pct : float) :
  0 <= m <= 2 ^ 53 ->
  (0 <=? pct)%float = true -> (pct <=? 1)%float = true ->
  match Prim2SF (Py.to_float m * pct)%float with
  | S754_zero _ => True
  | S754_finite false m' e' =>
      - 2148 <= e' /\ Z.pos m' * 2 ^ (e' + 2148) <= m * 2 ^ 2148
  | _ => False
  end.
Proof.
  intros Hm H0 H1. rewrite FloatAxioms.mul_spec.
  pose proof (to_float_below m 1074 Hm (Z.le_refl _)) as Hx.
  pose proof (unit_interval pct 1074 H0 H1 (Z.le_refl _)) as Hp.
  destruct (Prim2SF (Py.to_float m)) as [[]|[]| |[] mm em]; try contradiction;
    destruct (Prim2SF pct) as [s|[]| |[] mp ep]; try contradiction;
    try exact I.
  unfold SF64mul, SFmul. cbn [xorb].
  destruct Hx as [Hem Hx], Hp as [Hep Hp].
  pose proof (round_below (mm * mp) (em + ep) m 2148 Hm ltac:(lia) ltac:(lia))
    as Hr.
  assert (Hval : Z.pos (mm * mp) * 2 ^ (em + ep + 2148) <= m * 2 ^ 2148).
  { rewrite Pos2Z.inj_mul.
    replace (em + ep + 2148) with ((em + 1074) + (ep + 1074)) by lia.
    rewrite (Z.pow_add_r 2 (em + 1074) (ep + 1074)) by lia.
    replace 2148 with (1074 + 1074) by reflexivity.
    rewrite (Z.pow_add_r 2 1074 1074) by lia.
    pose proof (pow2_pos (em + 1074) ltac:(lia)).
    pose proof (pow2_pos (ep + 1074) ltac:(lia)).
    replace (Z.pos mm * Z.pos mp * (2 ^ (em + 1074) * 2 ^ (ep + 1074)))
      with ((Z.pos mm * 2 ^ (em + 1074)) * (Z.pos mp * 2 ^ (ep + 1074))) by ring.
    replace (m * (2 ^ 1074 * 2 ^ 1074)) with (m * 2 ^ 1074 * 2 ^ 1074) by ring.
    apply Z.mul_le_mono_nonneg; try assumption;
      apply Z.mul_nonneg_nonneg; lia. }
  specialize (Hr Hval).
  destruct (binary_round_aux prec emax false (Z.pos (mm * mp)) (em + ep) loc_Exact)
    as [[]|[]| |[] m' e']; try contradiction; try exact I.
  destruct Hr as [He Hr]. split; [lia | exact Hr].
Qed.

Lemma to_int_below (x : float) (B k : Z) :
  0 <= B -> 0 <= k ->
  match Prim2SF x with
  | S754_zero _ => True
  | S754_finite false m e => - k <= e /\ Z.pos m * 2 ^ (e + k) <= B * 2 ^ k
  | _ => False
  end ->
  exists idx, Py.to_int x = Py.Return idx /\ 0 <= idx <= B.
Proof.
  intros HB Hk Hx. unfold Py.to_int.
  destruct (Prim2SF x) as [s|[]| |[] m e]; try contradiction.
  - exists 0. split; [reflexivity | lia].
  - destruct Hx as [He Hx].
    pose proof (pow2_pos k Hk) as PK.
    destruct (Z.leb_spec 0 e) as [Hpos|Hneg].
    + exists (Z.pos m * 2 ^ e). split; [reflexivity|].
      pose proof (pow2_pos e Hpos) as PE.
      rewrite (Z.pow_add_r 2 e k), Z.mul_assoc in Hx by lia.
      apply Z.mul_le_mono_pos_r in Hx; [|exact PK]. split; [|exact Hx].
      apply Z.mul_nonneg_nonneg; lia.
    + exists (Z.pos m / 2 ^ (- e)). split; [reflexivity|].
      pose proof (pow2_pos (- e) ltac:(lia)) as PE.
      pose proof (pow2_pos (e + k) ltac:(lia)) as PS.
      split; [apply Z.div_pos; lia|].
      apply Z.div_le_upper_bound; [exact PE|].
      replace k with (- e + (e + k)) in Hx at 2 by lia.
      rewrite (Z.pow_add_r 2 (- e) (e + k)), Z.mul_assoc in Hx by lia.
      apply Z.mul_le_mono_pos_r in Hx; [|exact PS]. lia.
Qed.

End Rounding.

(** * Further properties of the driver *)

(** ** [percentile]: the index stays inside the list *)

Section PercentileBounds.

Import Py Driver.

Lemma index_in_range {A} (l : list A) (i : Z) :
  0 <= i < len l ->
  exists v, index l i = Return v /\ nth_error l (Z.to_nat i) = Some v /\ In v l.
Proof.
  unfold len, index. intros Hi.
  destruct (Z.ltb_spec i 0) as [|_]; [lia|].
  destruct (Z.ltb_spec i 0) as [|_]; [lia|].
  destruct (nth_error l (Z.to_nat i)) as [v|] eqn:E.
  - exists v. repeat split. eapply nth_error_In; eauto.
  - apply nth_error_None in E. lia.
Qed.

(** The index computed for a list of [n] values, [1 <= n <= 2^53], and a
    [pct] between 0 and 1 is an integer between 0 and [n - 1]. *)
Lemma percentile_index (n : Z) (pct : float) :
  1 <= n <= 2 ^ 53 ->
  (0 <=? pct)%float = true -> (pct <=? 1)%float = true ->
  exists idx, to_int (to_float (n - 1) * pct)%float = Return idx /\ 0 <= idx < n.
Proof.
  intros Hn H0 H1.
  assert (Hm : 0 <= n - 1 <= 2 ^ 53) by lia.
  pose proof (product_below (n - 1) pct Hm H0 H1) as Hp.
  assert (Hx : match Prim2SF (to_float (n - 1) * pct)%float with
               | S754_zero _ => True
               | S754_finite false m e =>
                   - 2148 <= e /\ Z.pos m * 2 ^ (e + 2148) <= (n - 1) * 2 ^ 2148
               | _ => False
               end).
  { destruct (Prim2SF (to_float (n - 1) * pct)%float) as [s|[]| |[] m e]; auto. }
  destruct (to_int_below _ (n - 1) 2148 ltac:(lia) ltac:(lia) Hx)
    as (idx & Hidx & Hb).
  exists idx. split; [exact Hidx | lia].
Qed.

(** On a list of at most 2^53 values and a [pct] between 0 and 1,
    [percentile] returns: 0.0 on the empty list, one of the values
    otherwise. *)
Lemma percentile_returns (values : list float) (pct : float) :
  len values <= 2 ^ 53 ->
  (0 <=? pct)%float = true -> (pct <=? 1)%float = true ->
  exists v, percentile values pct = Return v /\ (values = [] \/ In v values).
Proof.
  intros Hlen H0 H1.
  destruct values as [|x values]; [exists 0%float; auto|].
  unfold percentile.
  set (ordered := sorted (x :: values)).
  assert (Hl : len ordered = len (x :: values))
    by (unfold len, ordered, sorted; now rewrite sorted_by_length).
  rewrite Hl.
  destruct (percentile_index (len (x :: values)) pct) as (idx & Hidx & Hb); auto.
  { unfold len in *. cbn [List.length] in *. lia. }
  rewrite Hidx. cbn [bind].
  destruct (index_in_range ordered idx) as (v & Hv & _ & Hin); [lia|].
  exists v. split; [exact Hv|]. right.
  eapply Permutation_in; [|exact Hin]. apply sorted_by_perm.
Qed.








(** X1.  On a non-empty list of at most 2^53 values and a [pct] between 0
    and 1, [percentile] does not raise and returns one of the values. *)
Theorem percentile_in_bounds (values : list float) (pct : float) :
  values <> [] -> len values <= 2 ^ 53 ->
  (0 <=? pct)%float = true -> (pct <=? 1)%float = true ->
  exists v, percentile values pct = Return v /\ In v values.
Proof.
  intros Hne Hlen H0 H1.
  destruct (percentile_returns values pct Hlen H0 H1) as (v & Hv & [Hnil|Hin]);
    [congruence|].
  exists v. auto.
Qed.

Lemma percentile_in_bounds_witness :
  exists v,
    percentile [10; 20; 30; 40]%float 0.95 = Return v /\
    In v [10; 20; 30; 40]%float.
Proof.
  apply (percentile_in_bounds [10; 20; 30; 40]%float 0.95);
    [discriminate | unfold len; cbn [List.length]; lia | reflexivity | reflexivity].
Defined.

(** X2.  At [pct = 0] the value returned is a minimum of the list: no
    value of the list is below it. *)
Theorem percentile_zero_minimum (values : list float) :
  values <> [] -> len values <= 2 ^ 53 ->
  Forall (fun x => number x = true) values ->
  exists v,
    percentile values 0 = Return v /\ In v values /\
    forall x, In x values -> (x <? v)%float = false.
Proof.
  intros Hne Hlen Hnum.
  destruct values as [|x0 values]; [congruence|].
  pose proof (sorted_ascending (x0 :: values) Hnum) as Hasc.
  pose proof (sorted_by_perm PrimFloat.ltb (x0 :: values)) as Hperm.
  fold (sorted (x0 :: values)) in Hperm.
  unfold percentile.
  set (ordered := sorted (x0 :: values)) in *.
  assert (Hidx : to_int (to_float (len ordered - 1) * 0)%float = Return 0).
  { assert (Hl : len ordered = len (x0 :: values))
      by (unfold len; f_equal; now apply Permutation_length).
    assert (Hm : 0 <= len ordered - 1 <= 2 ^ 53)
      by (rewrite Hl; unfold len in *; cbn [List.length] in *; lia).
    pose proof (to_float_below _ 1074 Hm (Z.le_refl _)) as Hx.
    unfold to_int. rewrite FloatAxioms.mul_spec, zero_sf_spec.
    destruct (Prim2SF (to_float (len ordered - 1))) as [[]|[]| |[] m e];
      try contradiction; reflexivity. }
  rewrite Hidx. cbn [bind].
  destruct ordered as [|v rest] eqn:Eo.
  - apply Permutation_nil in Hperm. discriminate.
  - exists v. split; [reflexivity|]. split.
    + eapply Permutation_in; [exact Hperm | now left].
    + intros x Hx.
      apply (Permutation_in _ (Permutation_sym Hperm)) in Hx.
      inversion Hasc as [|? ? _ Hall]; subst.
      destruct Hx as [<-|Hx].
      * assert (Nv : number v = true).
        { rewrite Forall_forall in Hnum. apply Hnum.
          eapply Permutation_in; [exact Hperm | now left]. }
        destruct (v <? v)%float eqn:E; auto.
        now rewrite (ltb_asym v v Nv Nv E) in E.
      * rewrite Forall_forall in Hall. now apply Hall.
Qed.

Lemma percentile_zero_minimum_witness :
  exists v,
    percentile [30; 10; 20]%float 0 = Return v /\ In v [30; 10; 20]%float /\
    forall x, In x [30; 10; 20]%float -> (x <? v)%float = false.
Proof.
  apply (percentile_zero_minimum [30; 10; 20]%float);
    [discriminate | unfold len; cbn [List.length]; lia
     | repeat constructor].
Defined.

(** X3.  A [pct] that is not a number makes [percentile] raise
    [ValueError] on every non-empty list: [int()] refuses the NaN index. *)
Theorem percentile_nan_raises (values : list float) (pct : float) :
  values <> [] -> PrimFloat.is_nan pct = true ->
  percentile values pct = Raise ValueError.
Proof.
  intros Hne Hnan. destruct values as [|x values]; [congruence|].
  unfold percentile, to_int.
  rewrite FloatAxioms.mul_spec.
  assert (Hp : Prim2SF pct = S754_nan) by (unfold Prim2SF; now rewrite Hnan).
  rewrite Hp.
  destruct (Prim2SF (to_float _)); reflexivity.
Qed.

Lemma percentile_nan_raises_witness :
  percentile [10; 20]%float nan = Raise ValueError.
Proof.
  apply (percentile_nan_raises [10; 20]%float nan); [discriminate | reflexivity].
Defined.

End PercentileBounds.

(** ** Endpoints and relay ids *)

Section Identities.

Import Py Driver.

(** X4.  The endpoints repeat with period 200 * 200: the relay with
    index [i + 40000] is given the endpoint of the relay with index [i],
    so a run of more than 40000 relays has colliding endpoints. *)
Theorem generate_endpoint_period (index : Z) :
  generate_endpoint (index + 40000) = generate_endpoint index.
Proof.
  unfold generate_endpoint. cbv zeta.
  replace ((index + 40000) mod 200) with (index mod 200)
    by (symmetry; apply (Z_mod_plus_full index 200 200)).
  replace ((index + 40000) / 200) with (index / 200 + 1 * 200)
    by (symmetry; apply (Z_div_plus_full index 200 200); lia).
  rewrite (Z_mod_plus_full (index / 200) 1 200).
  replace ((index + 40000) mod 20000) with (index mod 20000)
    by (symmetry; apply (Z_mod_plus_full index 2 20000)).
  reflexivity.
Qed.

(** Reading a zero-padded decimal back. *)
Definition read_decimal (s : string) : option Z :=
  option_map Z.of_uint (NilEmpty.uint_of_string s).

Lemma read_zeros (k : nat) (s : string) (d : uint) :
  NilEmpty.uint_of_string s = Some d ->
  exists d', NilEmpty.uint_of_string (zeros k ++ s) = Some d' /\
             Z.of_uint d' = Z.of_uint d.
Proof.
  intros Hs. induction k as [|k (d' & Hd' & Hv)]; simpl.
  - exists d. auto.
  - rewrite Hd'. exists (D0 d'). split; [reflexivity | exact Hv].
Qed.

Lemma read_str (z : Z) :
  0 <= z ->
  exists d, NilEmpty.uint_of_string (str z) = Some d /\ Z.of_uint d = z.
Proof.
  intros Hz. destruct z as [|p|p]; [| |lia].
  - exists (D0 Nil). split; reflexivity.
  - unfold str, Z.to_int, NilZero.string_of_int, NilZero.string_of_uint.
    pose proof (DecimalPos.Unsigned.to_uint_nonnil p) as Hn.
    exists (Pos.to_uint p). split.
    + destruct (Pos.to_uint p) eqn:E; try congruence;
        rewrite <- E; apply NilEmpty.usu.
    + unfold Z.of_uint. now rewrite DecimalPos.Unsigned.of_to.
Qed.

Lemma read_format_03d (z : Z) :
  0 <= z -> read_decimal (format_03d z) = Some z.
Proof.
  intros Hz. unfold format_03d, read_decimal.
  destruct (Z.ltb_spec z 0) as [|_]; [lia|].
  rewrite Z.abs_eq by lia. cbn [String.append String.length].
  destruct (read_str z Hz) as (d & Hd & Hv).
  destruct (read_zeros (3 - 0 - String.length (str z)) (str z) d Hd)
    as (d' & Hd' & Hv').
  rewrite Hd'. cbn [option_map]. congruence.
Qed.

Lemma append_cancel (p a b : string) :
  (p ++ a)%string = (p ++ b)%string -> a = b.
Proof. induction p as [|c p IH]; simpl; [auto | intros [= H]; auto]. Qed.

(** X5.  The relay ids of a run are pairwise distinct, whatever the
    relay count, and there is one per relay. *)
Theorem relay_ids_distinct (token : string) (relay_count : Z) :
  NoDup (relay_ids token relay_count) /\
  len (relay_ids token relay_count) = Z.max 0 relay_count.
Proof.
  unfold relay_ids, range, len. split.
  - rewrite map_map.
    apply NoDup_map_NoDup_ForallPairs; [|apply seq_NoDup].
    intros i j _ _ Heq.
    apply append_cancel in Heq. apply append_cancel in Heq.
    apply append_cancel in Heq.
    apply (f_equal read_decimal) in Heq.
    rewrite !read_format_03d in Heq by lia.
    injection Heq as Heq. lia.
  - rewrite !length_map, length_seq. lia.
Qed.

(** ** The post-soak listing *)

Lemma registered_ids_spec (items : list json) :
  forall present,
    registered_ids items = Return present ->
    forall v,
      In v present <->
      exists fields, In (JDict fields) items /\ dict_get fields "relay_id" = v.
Proof.
  induction items as [|item items IH]; intros present Hp v.
  - injection Hp as <-. split; [contradiction | intros (f & [] & _)].
  - destruct item as [|b|z|f|s|l|fields]; cbn [registered_ids] in Hp;
      try (rewrite (IH present Hp v);
           split; intros (fs & Hin & Hg); exists fs;
           [split; [now right | exact Hg]
           | split; [destruct Hin as [Hin|Hin]; [discriminate | exact Hin]
                    | exact Hg]]).
    destruct (registered_ids items) as [rest|e] eqn:Hr.
    + assert (Hpres : present = dict_get fields "relay_id" :: rest)
        by (destruct (dict_get fields "relay_id"); cbn [bind] in Hp;
            congruence).
      subst present. cbn [In]. rewrite (IH rest eq_refl v). split.
      * intros [<-|(f & Hin & Hg)].
        -- exists fields. split; [now left | reflexivity].
        -- exists f. split; [now right | exact Hg].
      * intros (f & [Hin|Hin] & Hg).
        -- injection Hin as <-. now left.
        -- right. exists f. auto.
    + destruct (dict_get fields "relay_id"); cbn [bind] in Hp; discriminate.
Qed.

(** X6.  A relay of the run counts as missing exactly when no object of
    the listing carries its id under ["relay_id"]; entries of the listing
    that are not objects play no part. *)
Theorem missing_relays_spec (ids : list string) (items present : list json)
    (relay_id : string) :
  registered_ids items = Return present ->
  (In relay_id (missing_relays ids present) <->
   In relay_id ids /\
   ~ exists fields,
       In (JDict fields) items /\ dict_get fields "relay_id" = JStr relay_id).
Proof.
  intros Hp. unfold missing_relays.
  rewrite filter_In, negb_true_iff, <- not_true_iff_false, existsb_exists.
  assert (Hiff : (exists v, In v present /\ is_str relay_id v = true) <->
                 exists fields,
                   In (JDict fields) items /\
                   dict_get fields "relay_id" = JStr relay_id).
  { split.
    - intros (v & Hin & Hs). destruct v; try discriminate.
      apply String.eqb_eq in Hs. subst s.
      now apply (registered_ids_spec items present Hp).
    - intros H. apply (registered_ids_spec items present Hp) in H.
      exists (JStr relay_id). split; [exact H|]. apply String.eqb_refl. }
  rewrite Hiff. tauto.
Qed.

Lemma missing_relays_spec_witness :
  In "load-0123abcd-001"%string
     (missing_relays (relay_ids "0123abcd" 2)
        [JStr "load-0123abcd-000"]).
Proof.
  apply (missing_relays_spec (relay_ids "0123abcd" 2)
           [JDict [("relay_id"%string, JStr "load-0123abcd-000")]; JInt 3]
           [JStr "load-0123abcd-000"] "load-0123abcd-001"%string eq_refl).
  split.
  - right. left. reflexivity.
  - intros (fields & [Hin|[Hin|[]]] & Hg); [|discriminate].
    injection Hin as <-. discriminate Hg.
Defined.

End Identities.

(** ** Heartbeat totals, and runs that return *)

Section Heartbeats.

Import Py Driver.


Lemma heartbeat_calls_length (a : args) (w : world) (ids : list string) (n : nat) :
  List.length (heartbeat_calls a w ids n) = List.length ids.
Proof.
  unfold heartbeat_calls.
  rewrite length_map, length_combine, length_seq. lia.
Qed.

(** What a finished soak loop adds to a tally: as many latencies as
    calls, and no more successes than calls. *)
Lemma soak_loop_tally (a : args) (w : world) (ids : list string) (start : float) :
  forall (fuel : nat) (clock : list float) (n : nat) (t : tally) waves t',
    (List.length clock <= fuel)%nat ->
    soak_loop a w ids start clock n t = Some (Return (waves, t')) ->
    total t <= total t' /\
    len (latencies t') - len (latencies t) = total t' - total t /\
    success t <= success t' /\
    success t' - success t <= total t' - total t.
Proof.
  induction fuel as [|fuel IH]; intros clock n t waves t' Hlen Hrun.
  - destruct clock; [discriminate | simpl in Hlen; lia].
  - destruct clock as [|now clock1]; [discriminate|].
    cbn [soak_loop] in Hrun.
    destruct (float_lt_int (now - start)%float (soak_seconds a)).
    + destruct clock1 as [|ws clock2]; [discriminate|].
      destruct (drain t _) as [t1|e] eqn:Hdrain; [|discriminate].
      destruct clock2 as [|we clock2]; [discriminate|].
      destruct (soak_loop a w ids start clock2 (S n) _)
        as [[[waves' t'']|e]|] eqn:Hrest; try discriminate.
      injection Hrun as <- <-.
      apply IH in Hrest; [|simpl in Hlen; lia].
      destruct (drain_spec _ _ _ Hdrain) as (results & _ & Ht & Hs & Hl).
      rewrite Ht, Hs, Hl in Hrest.
      assert (Hf : len (filter ok_of results) <= len results)
        by (unfold len; apply Nat2Z.inj_le, filter_length_le).
      unfold len in *. rewrite length_app, length_map in Hrest. lia.
    + injection Hrun as <- <-. lia.
Qed.

Lemma soak_loop_total (a : args) (w : world) (ids : list string) (start : float) :
  (forall n, Permutation (heartbeat_order w n) (seq 0 (List.length ids))) ->
  forall (fuel : nat) (clock : list float) (n : nat) (t : tally) waves t',
    (List.length clock <= fuel)%nat ->
    soak_loop a w ids start clock n t = Some (Return (waves, t')) ->
    total t' = total t + len waves * len ids.
Proof.
  intros Hperm.
  induction fuel as [|fuel IH]; intros clock n t waves t' Hlen Hrun.
  - destruct clock; [discriminate | simpl in Hlen; lia].
  - destruct clock as [|now clock1]; [discriminate|].
    cbn [soak_loop] in Hrun.
    destruct (float_lt_int (now - start)%float (soak_seconds a)).
    + destruct clock1 as [|ws clock2]; [discriminate|].
      destruct (drain t _) as [t1|e] eqn:Hdrain; [|discriminate].
      destruct clock2 as [|we clock2]; [discriminate|].
      destruct (soak_loop a w ids start clock2 (S n) _)
        as [[[waves' t'']|e]|] eqn:Hrest; try discriminate.
      injection Hrun as <- <-.
      apply IH in Hrest; [|simpl in Hlen; lia].
      destruct (drain_spec _ _ _ Hdrain) as (results & Hres & Ht & _ & _).
      rewrite Ht in Hrest.
      assert (Hc : len results = len ids).
      { assert (Hp : Permutation (heartbeat_order w n)
                                 (seq 0 (List.length (heartbeat_calls a w ids n))))
          by (rewrite heartbeat_calls_length; apply Hperm).
        unfold len. f_equal.
        rewrite <- (length_map (@Return (bool * float * Z)) results), <- Hres.
        rewrite (Permutation_length (as_completed_perm _ _ Hp)).
        apply heartbeat_calls_length. }
      rewrite Hc in Hrest. unfold len in *. cbn [List.length]. lia.
    + injection Hrun as <- <-. unfold len. cbn [List.length]. lia.
Qed.

(** X7.  When every wave's calls all complete, [heartbeat_total] is the
    number of waves times the number of relays, there is one latency
    sample per heartbeat call, and the successes do not exceed the
    total. *)
Theorem heartbeat_totals (a : args) (w : world) (ids : list string)
    (waves : list wave) (t : tally) :
  (forall n, Permutation (heartbeat_order w n) (seq 0 (List.length ids))) ->
  soak_phase a w ids = Some (Return (waves, t)) ->
  total t = len waves * len ids /\
  len (latencies t) = total t /\
  0 <= success t <= total t.
Proof.
  unfold soak_phase. intros Hperm Hrun.
  destruct (monotonic w) as [|start clock]; [discriminate|].
  pose proof (soak_loop_total a w ids start Hperm _ _ _ _ _ _ (Nat.le_refl _) Hrun)
    as Htot.
  pose proof (soak_loop_tally a w ids start _ _ _ _ _ _ (Nat.le_refl _) Hrun)
    as (_ & Hlat & Hs0 & Hs1).
  cbn [total success latencies] in *. unfold len in *. cbn [List.length] in *.
  lia.
Qed.

Lemma heartbeat_totals_witness :
  match soak_phase sample_args sample_world (relay_ids "0123abcd" 2) with
  | Some (Return (waves, t)) =>
      total t = len waves * 2 /\ len (latencies t) = total t /\
      0 <= success t <= total t
  | _ => False
  end.
Proof.
  destruct (soak_phase sample_args sample_world (relay_ids "0123abcd" 2))
    as [[[waves t]|e]|] eqn:E.
  - apply (heartbeat_totals sample_args sample_world (relay_ids "0123abcd" 2)
             waves t); [|exact E].
    intros n. apply perm_swap.
  - vm_compute in E. discriminate E.
  - vm_compute in E. discriminate E.
Defined.

Variable round : float -> Z -> float.
Variable mean : list float -> float.
Variable loads : string -> outcome json.





(** X17.  [post_json] raises in two cases only: the [Request] cannot be
    built, or the answer is an HTTP error whose body cannot be read.
    Every other failure of the exchange is returned as a status. *)
Theorem post_json_escapes (url : string) (payload : json) (timeout : float)
    (at' : attempt) (e : exn) :
  post_json url payload timeout at' = Raise e <->
  request at' = Raise e \/
  (request at' = Return tt /\
   (exists code, exchange at' = Raise (HTTPError code)) /\
   error_body at' = Raise e).
Proof.
  unfold post_json.
  destruct (request at') as [[]|e0]; cbn [bind].
  - destruct (exchange at') as [result|e1].
    + split; [discriminate|].
      intros [H|(_ & (code & H) & _)]; discriminate H.
    + destruct e1 as [c| | | | | | | |];
        try (split; [discriminate|];
             intros [H|(_ & (code & H) & _)]; discriminate H).
      destruct (error_body at') as [text|e1]; cbn [bind].
      * split; [discriminate|].
        intros [H|(_ & _ & H)]; discriminate H.
      * split.
        -- intros [= ->]. right. split; [reflexivity|].
           split; [now exists c | reflexivity].
        -- intros [H|(_ & _ & [= ->])]; [discriminate H | reflexivity].
  - split.
    + intros [= ->]. now left.
    + intros [[= ->]|(H & _)]; [reflexivity | discriminate H].
Qed.






End Heartbeats.


(** * Further properties of the chaos proxy *)

Section Sessions.

Import Py Proxy.








(** ** Counting the dropped connections *)







(** ** A failing write *)

Lemma pipe_loop_failed_write (w : writer) (e : exn) (k : nat) :
  forall (r : reader) (j0 : nat),
    (forall j, (j < k)%nat -> drain w (j0 + j) = Return tt) ->
    drain w (j0 + k) = Raise e ->
    (k < List.length (source r))%nat ->
    written (fst (pipe_loop r w j0)) = firstn (S k) (source r) /\
    List.length (read_sizes (fst (pipe_loop r w j0))) = S k.
Proof.
  induction k as [|k IH]; intros r j0 Hok Hfail Hlen.
  - destruct r as [|[[|b chunk]|e'] r]; simpl in Hlen; try lia.
    cbn [pipe_loop]. rewrite Nat.add_0_r in Hfail. rewrite Hfail.
    split; reflexivity.
  - destruct r as [|[[|b chunk]|e'] r]; simpl in Hlen; try lia.
    cbn [pipe_loop].
    pose proof (Hok 0%nat ltac:(lia)) as H0. rewrite Nat.add_0_r in H0.
    rewrite H0.
    destruct (IH r (S j0)) as [Hw Hr].
    + intros j Hj. replace (S j0 + j)%nat with (j0 + S j)%nat by lia.
      apply Hok. lia.
    + replace (S j0 + k)%nat with (j0 + S k)%nat by lia. exact Hfail.
    + lia.
    + destruct (pipe_loop r w (S j0)) as [ops res]. cbn [fst] in *.
      cbn [source]. split.
      * change (written (Read 65536 :: Write (b :: chunk) :: Drain :: ops))
          with ((b :: chunk) :: written ops).
        rewrite Hw. reflexivity.
      * change (read_sizes (Read 65536 :: Write (b :: chunk) :: Drain :: ops))
          with (65536 :: read_sizes ops).
        cbn [List.length]. now rewrite Hr.
Qed.

(** X11.  When the sink's write number [k] (from 0) is the first to
    fail, the direction has passed the first [k + 1] chunks of the source
    to [write], reads nothing more, and still returns normally. *)
Theorem pipe_stops_at_failed_write (r : reader) (w : writer) (e : exn)
    (k : nat) :
  (forall j, (j < k)%nat -> drain w j = Return tt) ->
  drain w k = Raise e ->
  (k < List.length (source r))%nat ->
  written (fst (pipe r w)) = firstn (S k) (source r) /\
  List.length (read_sizes (fst (pipe r w))) = S k /\
  snd (pipe r w) = Return tt.
Proof.
  intros Hok Hfail Hlen.
  destruct (pipe_loop_failed_write w e k r 0 Hok Hfail Hlen) as [Hw Hr].
  unfold pipe.
  destruct (pipe_loop r w 0) as [ops res]. cbn [fst] in Hw, Hr.
  pose proof (shut_ops w) as Hs.
  destruct (shut w) as [closing closed]. cbn [fst snd] in *.
  rewrite written_app, read_sizes_app, Hw, length_app, Hr.
  destruct Hs as [-> | ->]; cbn [written read_sizes flat_map app List.length];
    rewrite app_nil_r, Nat.add_0_r;
    (split; [reflexivity | split; [reflexivity|]]);
    destruct closed as [[]|?], res as [[]|?]; reflexivity.
Qed.

End Sessions.

Definition failing_writer : Proxy.writer :=
  {| Proxy.drain := fun j => if Nat.eqb j 1 then Py.Raise Py.ConnectionError
                             else Py.Return tt;
     Proxy.close := Py.Return tt;
     Proxy.wait_closed := Py.Return tt |}.

Lemma pipe_stops_at_failed_write_witness :
  written (fst (Proxy.pipe sample_reader failing_writer))
  = [[x01; x02]; [x03]]%byte /\
  List.length (read_sizes (fst (Proxy.pipe sample_reader failing_writer))) = 2%nat /\
  snd (Proxy.pipe sample_reader failing_writer) = Py.Return tt.
Proof.
  apply (pipe_stops_at_failed_write sample_reader failing_writer
           Py.ConnectionError 1).
  - intros j Hj. destruct j as [|j]; [reflexivity | lia].
  - reflexivity.
  - cbn. lia.
Defined.

(** * Elapsed times

    The difference of two clock readings, the later minus the earlier,
    is never negative, and neither is a latency in milliseconds. *)

Section ElapsedTimes.

Import Py Driver.

(** A non-negative finite number, as the clocks return. *)
Definition reading (x : float) : bool :=
  match Prim2SF x with
  | S754_zero false | S754_finite false _ _ => true
  | _ => false
  end.

(** Zero or above, up to the positive infinity. *)
Definition nonneg_sf (f : spec_float) : Prop :=
  match f with
  | S754_zero false | S754_finite false _ _ | S754_infinity false => True
  | _ => False
  end.

Lemma round_nonneg (P : positive) (E : Z) :
  nonneg_sf (binary_round_aux prec emax false (Z.pos P) E loc_Exact).
Proof.
  unfold binary_round_aux, shr_fexp. cbn [shr_record_of_loc].
  set (a := {| shr_m := Z.pos P; shr_r := false; shr_s := false |}).
  set (n1 := fexp prec emax (Zdigits2 (Z.pos P) + E) - E).
  assert (Ha : 0 <= shr_m a) by (cbn; lia).
  destruct (shr_shifted a E n1 Ha) as [S1 _].
  destruct (shr a E n1) as [r1 e1]. cbn [fst snd] in S1.
  destruct (shifted_floor (Z.max n1 0) a r1 ltac:(lia) Ha S1) as (Hq0 & _ & _).
  pose proof (round_nearest_even_step r1) as Hq. cbv zeta in Hq.
  set (q' := round_nearest_even (shr_m r1) (loc_of_shr_record r1)) in *.
  assert (Hq' : 0 <= q') by (destruct Hq as [->|[-> _]]; lia).
  set (b := {| shr_m := q'; shr_r := false; shr_s := false |}).
  set (n2 := fexp prec emax (Zdigits2 q' + e1) - e1).
  destruct (shr_shifted b e1 n2 Hq') as [S2 _].
  destruct (shr b e1 n2) as [r2 e2]. cbn [fst snd] in S2.
  destruct (shifted_floor (Z.max n2 0) b r2 ltac:(lia) Hq' S2) as (Hm0 & _ & _).
  destruct (shr_m r2) as [|m|m]; [exact I| |lia].
  destruct (e2 <=? emax - prec); exact I.
Qed.

Lemma normalize_nonneg (m e : Z) :
  0 <= m -> nonneg_sf (binary_normalize prec emax m e false).
Proof.
  intros Hm. destruct m as [|p|p]; [exact I| |lia].
  cbn [binary_normalize]. unfold binary_round.
  destruct (shl_align p e _) as [mz ez]. apply round_nonneg.
Qed.

(** A valid number above the subnormal range has a full mantissa. *)
Lemma valid_normal (s : bool) (m : positive) (e : Z) :
  valid_binary (S754_finite s m e) = true -> - 1074 < e -> 2 ^ 52 <= Z.pos m.
Proof.
  unfold SpecFloat.valid_binary, bounded, canonical_mantissa.
  intros Hv He. apply andb_prop in Hv. destruct Hv as [Hc _].
  apply Z.eqb_eq in Hc. unfold fexp, SpecFloat.emin, prec, emax in Hc.
  pose proof (digits2_pos_bounds m) as [Hlow _].
  replace (Z.pos (digits2_pos m) - 1) with 52 in Hlow by lia.
  exact Hlow.
Qed.

Lemma leb_finite_value (mx my : positive) (ex ey k : Z) :
  valid_binary (S754_finite false mx ex) = true ->
  valid_binary (S754_finite false my ey) = true ->
  SFleb (S754_finite false my ey) (S754_finite false mx ex) = true ->
  1074 <= k ->
  Z.pos my * 2 ^ (ey + k) <= Z.pos mx * 2 ^ (ex + k).
Proof.
  intros Vx Vy Hle Hk.
  destruct (valid_finite _ _ _ Vx) as [Hex Hmx].
  destruct (valid_finite _ _ _ Vy) as [Hey Hmy].
  unfold SFleb, SFcompare in Hle.
  pose proof (pow2_pos (ey + k) ltac:(lia)) as Py.
  destruct (ey ?= ex) eqn:Ec.
  - apply Z.compare_eq_iff in Ec. subst ey.
    apply Z.mul_le_mono_nonneg_r; [lia|].
    destruct (PosDef.Pos.compare_cont Eq my mx) eqn:Em.
    + apply Pos.compare_eq in Em. rewrite Em. apply Z.le_refl.
    + apply Z.lt_le_incl. exact (Pos2Z.pos_lt_pos _ _ Em).
    + discriminate Hle.
  - change (ey < ex) in Ec.
    pose proof (valid_normal _ _ _ Vx ltac:(lia)) as Hfull.
    replace (ex + k) with ((ex - ey) + (ey + k)) by lia.
    rewrite (Z.pow_add_r 2 (ex - ey) (ey + k)) by lia.
    assert (H2 : 2 <= 2 ^ (ex - ey)).
    { change 2 with (2 ^ 1) at 1. apply Z.pow_le_mono_r; lia. }
    apply Z.le_trans with (2 ^ 53 * 2 ^ (ey + k)).
    + apply Z.mul_le_mono_nonneg_r; lia.
    + rewrite Z.mul_assoc. apply Z.mul_le_mono_nonneg_r; [lia|].
      change (2 ^ 53) with (2 ^ 52 * 2 ^ 1).
      apply Z.mul_le_mono_nonneg; lia.
  - discriminate Hle.
Qed.

Lemma shl_align_fst (mx : positive) (ex ez k : Z) :
  ez <= ex -> 0 <= ez + k ->
  Z.pos (fst (shl_align mx ex ez)) * 2 ^ (ez + k) = Z.pos mx * 2 ^ (ex + k).
Proof.
  intros Hle Hk.
  pose proof (shl_align_spec mx ex ez k Hk ltac:(lia)) as H.
  destruct (shl_align mx ex ez) as [mz e']. destruct H as [He' Hv].
  cbn [fst]. rewrite <- Hv. f_equal. f_equal. lia.
Qed.

(** The later reading minus the earlier one is zero or above. *)
Lemma sub_readings (earlier later : float) :
  reading earlier = true -> reading later = true ->
  (earlier <=? later)%float = true ->
  nonneg_sf (Prim2SF (later - earlier)%float).
Proof.
  unfold reading. intros He Hl Hle.
  rewrite FloatAxioms.leb_spec in Hle. rewrite FloatAxioms.sub_spec.
  pose proof (Prim2SF_valid earlier) as Ve.
  pose proof (Prim2SF_valid later) as Vl.
  destruct (Prim2SF earlier) as [[]|[]| |[] my ey]; try discriminate;
    destruct (Prim2SF later) as [[]|[]| |[] mx ex]; try discriminate;
    try exact I.
  unfold SF64sub, SFsub. cbn [cond_Zopp].
  apply normalize_nonneg.
  set (ez := Z.min ex ey).
  pose proof (leb_finite_value mx my ex ey 1074 Vl Ve Hle (Z.le_refl _)) as Hv.
  destruct (valid_finite _ _ _ Vl) as [Hex _].
  destruct (valid_finite _ _ _ Ve) as [Hey _].
  rewrite <- (shl_align_fst mx ex ez 1074) in Hv by (unfold ez; lia).
  rewrite <- (shl_align_fst my ey ez 1074) in Hv by (unfold ez; lia).
  pose proof (pow2_pos (ez + 1074) ltac:(unfold ez; lia)) as Pz.
  apply Z.mul_le_mono_pos_r in Hv; [lia | exact Pz].
Qed.

Lemma nonneg_not_below (x : float) (k : Z) :
  nonneg_sf (Prim2SF x) -> k <= 0 -> float_lt_int x k = false.
Proof.
  unfold float_lt_int. intros Hx Hk.
  destruct (Prim2SF x) as [[]|[]| |[] m e]; try contradiction; try reflexivity.
  - apply Z.ltb_ge. exact Hk.
  - destruct (0 <=? e) eqn:E; apply Z.ltb_ge.
    + apply Z.leb_le in E. pose proof (pow2_pos e E). nia.
    + apply Z.leb_gt in E. pose proof (pow2_pos (- e) ltac:(lia)). nia.
Qed.

(** X12.  With a soak duration of zero or less and a clock that does not
    run backwards, the soak loop ends at its first test: no wave runs and
    no heartbeat is counted. *)
Theorem no_soak_no_wave (a : args) (w : world) (ids : list string)
    (start now : float) (rest : list float) :
  monotonic w = start :: now :: rest ->
  reading start = true -> reading now = true ->
  (start <=? now)%float = true ->
  soak_seconds a <= 0 ->
  soak_phase a w ids = Some (Return ([], no_calls)).
Proof.
  intros Hclock Hs Hn Hle Hsoak.
  unfold soak_phase. rewrite Hclock. cbn [soak_loop].
  now rewrite (nonneg_not_below _ _ (sub_readings start now Hs Hn Hle) Hsoak).
Qed.

Lemma no_soak_no_wave_witness :
  soak_phase no_soak_args sample_world (relay_ids "0123abcd" 2)
  = Some (Return ([], no_calls)).
Proof.
  apply (no_soak_no_wave no_soak_args sample_world (relay_ids "0123abcd" 2)
           5 5.5 [5.5; 6; 7.5]%float);
    [reflexivity | reflexivity | reflexivity | reflexivity | cbn; lia].
Defined.

Lemma thousand_sf : Prim2SF 1000 = S754_finite false 8796093022208000 (-43).
Proof. vm_compute. reflexivity. Qed.

Lemma nonneg_sample (x : float) :
  nonneg_sf (Prim2SF x) -> sample x = true /\ (x <? 0)%float = false.
Proof.
  intros Hx. unfold sample. rewrite FloatAxioms.ltb_spec, zero_sf_spec.
  destruct (Prim2SF x) as [[]|[]| |[] m e]; try contradiction; auto.
Qed.

Lemma elapsed_nonneg (earlier later : float) :
  reading earlier = true -> reading later = true ->
  (earlier <=? later)%float = true ->
  nonneg_sf (Prim2SF ((later - earlier) * 1000)%float).
Proof.
  intros Hs Hf Hle.
  rewrite FloatAxioms.mul_spec, thousand_sf.
  pose proof (sub_readings _ _ Hs Hf Hle) as Hd.
  destruct (Prim2SF (later - earlier)%float) as [[]|[]| |[] m e];
    try contradiction; try exact I.
  unfold SF64mul, SFmul. cbn [xorb]. apply round_nonneg.
Qed.

(** The latency [post_json] returns is taken at the second reading of the
    clock or, when the [with] block raised, at the third. *)
Lemma post_json_latency (url : string) (payload : json) (timeout : float)
    (at' : attempt) (status : Z) (latency : float) (text : string) :
  post_json url payload timeout at' = Return (status, latency, text) ->
  latency = ((finished at' - started at') * 1000)%float \/
  latency = ((handled at' - started at') * 1000)%float.
Proof.
  unfold post_json, exchange, caught_at, leaving.
  destruct (request at') as [[]|e0]; [|discriminate]. cbn [bind].
  destruct (urlopen at') as [resp|e1]; cbn [bind].
  - destruct (closed resp) as [[]|e2].
    + destruct (read resp) as [body|e2]; cbn [bind].
      * intros [= _ <- _]. now left.
      * destruct e2; try (intros [= _ <- _]; now right).
        destruct (error_body at'); [|discriminate].
        cbn [bind]. intros [= _ <- _]. now right.
    + destruct e2; try (intros [= _ <- _]; now right).
      destruct (error_body at'); [|discriminate].
      cbn [bind]. intros [= _ <- _]. now right.
  - destruct e1; try (intros [= _ <- _]; now left).
    destruct (error_body at'); [|discriminate].
    cbn [bind]. intros [= _ <- _]. now left.
Qed.

(** X13.  When the clock does not run backwards during a call, the
    latency [post_json] returns is a number that is not negative,
    whatever the outcome of the exchange. *)
Theorem latency_not_negative (url : string) (payload : json) (timeout : float)
    (at' : attempt) (status : Z) (latency : float) (text : string) :
  reading (started at') = true -> reading (finished at') = true ->
  reading (handled at') = true ->
  (started at' <=? finished at')%float = true ->
  (started at' <=? handled at')%float = true ->
  post_json url payload timeout at' = Return (status, latency, text) ->
  sample latency = true /\ (latency <? 0)%float = false.
Proof.
  intros Hs Hf Hh Hle Hle' Hpost.
  apply nonneg_sample.
  destruct (post_json_latency _ _ _ _ _ _ _ Hpost) as [-> | ->];
    now apply elapsed_nonneg.
Qed.

Lemma latency_not_negative_witness :
  post_json "http://127.0.0.1:8080/v1/relays/register"
            (register_payload "load-0123abcd-001" (generate_endpoint 1))
            3 (register_attempt sample_world 1)
  = Return (0, 250%float, EmptyString) /\
  sample 250 = true /\ (250 <? 0)%float = false.
Proof.
  split; [reflexivity|].
  apply (latency_not_negative
           "http://127.0.0.1:8080/v1/relays/register"
           (register_payload "load-0123abcd-001" (generate_endpoint 1))
           3 (register_attempt sample_world 1) 0 250 EmptyString);
    reflexivity.
Defined.

End ElapsedTimes.

(** ** A wave that overruns the interval *)

Section Overrun.

Import Py Driver.

(** Zero or below. *)
Definition nonpos_sf (f : spec_float) : Prop :=
  match f with
  | S754_zero _ | S754_finite true _ _ | S754_infinity true => True
  | _ => False
  end.

Lemma round_nonpos (P : positive) (E : Z) :
  nonpos_sf (binary_round_aux prec emax true (Z.pos P) E loc_Exact).
Proof.
  unfold binary_round_aux, shr_fexp. cbn [shr_record_of_loc].
  set (a := {| shr_m := Z.pos P; shr_r := false; shr_s := false |}).
  set (n1 := fexp prec emax (Zdigits2 (Z.pos P) + E) - E).
  assert (Ha : 0 <= shr_m a) by (cbn; lia).
  destruct (shr_shifted a E n1 Ha) as [S1 _].
  destruct (shr a E n1) as [r1 e1]. cbn [fst snd] in S1.
  destruct (shifted_floor (Z.max n1 0) a r1 ltac:(lia) Ha S1) as (Hq0 & _ & _).
  pose proof (round_nearest_even_step r1) as Hq. cbv zeta in Hq.
  set (q' := round_nearest_even (shr_m r1) (loc_of_shr_record r1)) in *.
  assert (Hq' : 0 <= q') by (destruct Hq as [->|[-> _]]; lia).
  set (b := {| shr_m := q'; shr_r := false; shr_s := false |}).
  set (n2 := fexp prec emax (Zdigits2 q' + e1) - e1).
  destruct (shr_shifted b e1 n2 Hq') as [S2 _].
  destruct (shr b e1 n2) as [r2 e2]. cbn [fst snd] in S2.
  destruct (shifted_floor (Z.max n2 0) b r2 ltac:(lia) Hq' S2) as (Hm0 & _ & _).
  destruct (shr_m r2) as [|m|m]; [exact I| |lia].
  destruct (e2 <=? emax - prec); exact I.
Qed.

Lemma normalize_nonpos (m e : Z) :
  m <= 0 -> nonpos_sf (binary_normalize prec emax m e false).
Proof.
  intros Hm. destruct m as [|p|p]; [exact I|lia|].
  cbn [binary_normalize]. unfold binary_round.
  destruct (shl_align p e _) as [mz ez]. apply round_nonpos.
Qed.

(** A reading minus one that is not below it is zero or below. *)
Lemma sub_readings_nonpos (smaller larger : float) :
  reading smaller = true -> reading larger = true ->
  (smaller <=? larger)%float = true ->
  nonpos_sf (Prim2SF (smaller - larger)%float).
Proof.
  unfold reading. intros Hs Hl Hle.
  rewrite FloatAxioms.leb_spec in Hle. rewrite FloatAxioms.sub_spec.
  pose proof (Prim2SF_valid smaller) as Vs.
  pose proof (Prim2SF_valid larger) as Vl.
  destruct (Prim2SF smaller) as [[]|[]| |[] my ey]; try discriminate;
    destruct (Prim2SF larger) as [[]|[]| |[] mx ex]; try discriminate;
    try exact I.
  unfold SF64sub, SFsub. cbn [cond_Zopp].
  apply normalize_nonpos.
  set (ez := Z.min ey ex).
  pose proof (leb_finite_value mx my ex ey 1074 Vl Vs Hle (Z.le_refl _)) as Hv.
  destruct (valid_finite _ _ _ Vl) as [Hex _].
  destruct (valid_finite _ _ _ Vs) as [Hey _].
  rewrite <- (shl_align_fst mx ex ez 1074) in Hv by (unfold ez; lia).
  rewrite <- (shl_align_fst my ey ez 1074) in Hv by (unfold ez; lia).
  pose proof (pow2_pos (ez + 1074) ltac:(unfold ez; lia)) as Pz.
  apply Z.mul_le_mono_pos_r in Hv; [lia | exact Pz].
Qed.

Lemma nonpos_not_above (x : float) :
  nonpos_sf (Prim2SF x) -> (0 <? x)%float = false.
Proof.
  intros Hx. rewrite FloatAxioms.ltb_spec, zero_sf_spec.
  destruct (Prim2SF x) as [[]|[]| |[] m e]; try contradiction; reflexivity.
Qed.

(** X16.  In a finished soak, a wave whose elapsed time is not below the
    interval is followed by no sleep. *)
Theorem overrun_no_sleep (a : args) (w : world) (ids : list string)
    (waves : list wave) (t : tally) (wv : wave) :
  soak_phase a w ids = Some (Return (waves, t)) ->
  In wv waves ->
  reading (interval_seconds a) = true ->
  reading (wave_end wv - wave_start wv)%float = true ->
  (interval_seconds a <=? wave_end wv - wave_start wv)%float = true ->
  slept wv = None.
Proof.
  intros Hrun Hin Hi He Hle.
  unfold soak_phase in Hrun.
  destruct (monotonic w) as [|start clock]; [discriminate|].
  apply (soak_loop_waves a w ids start (List.length clock)) in Hrun; auto.
  destruct Hrun as (Hwaves & _).
  rewrite Forall_forall in Hwaves.
  destruct (Hwaves wv Hin) as (_ & _ & _ & Hslept & _).
  cbv zeta in Hslept. rewrite Hslept.
  now rewrite (nonpos_not_above _ (sub_readings_nonpos _ _ Hi He Hle)).
Qed.

End Overrun.

(** A clock on which the one wave of the sample run takes a second and a
    half, against an interval of one second. *)
Definition slow_world : Driver.world :=
  {| Driver.token := Driver.token sample_world;
     Driver.register_attempt := Driver.register_attempt sample_world;
     Driver.register_order := Driver.register_order sample_world;
     Driver.monotonic := [5; 5.5; 5.5; 7; 7.5]%float;
     Driver.heartbeat_load := Driver.heartbeat_load sample_world;
     Driver.heartbeat_attempt := Driver.heartbeat_attempt sample_world;
     Driver.heartbeat_order := Driver.heartbeat_order sample_world;
     Driver.listing := Driver.listing sample_world |}.

Lemma overrun_no_sleep_witness :
  match Driver.soak_phase sample_args slow_world
                          (Driver.relay_ids "0123abcd" 2) with
  | Some (Py.Return (wv :: _, _)) => Driver.slept wv = None
  | _ => False
  end.
Proof.
  destruct (Driver.soak_phase sample_args slow_world
                              (Driver.relay_ids "0123abcd" 2))
    as [[[[|wv waves] t]|e]|] eqn:E; try (vm_compute in E; discriminate E).
  apply (overrun_no_sleep sample_args slow_world
           (Driver.relay_ids "0123abcd" 2) (wv :: waves) t wv E);
    [now left | reflexivity | | ];
    vm_compute in E; injection E as <- _ _; reflexivity.
Defined.

(** ** Edge cases of the configuration and of the listing *)

Section Edges.

Import Py Driver.

Variable loads : string -> outcome json.


Definition unhashable (v : json) : bool :=
  match v with
  | JList _ | JDict _ => true
  | _ => false
  end.

(** X15.  Building the set of listed ids raises [TypeError] exactly when
    some object of the listing has a list or an object as its
    ["relay_id"]; otherwise it returns. *)
Theorem registered_ids_raises (items : list json) :
  (registered_ids items = Raise TypeError <->
   exists fields,
     In (JDict fields) items /\ unhashable (dict_get fields "relay_id") = true) /\
  (registered_ids items = Raise TypeError \/
   exists present, registered_ids items = Return present).
Proof.
  induction items as [|item items [IH IHt]].
  - split; [|right; eexists; reflexivity].
    split; [discriminate | intros (f & [] & _)].
  - destruct item as [|b|z|f|s|l|fields]; cbn [registered_ids];
      try (split; [|exact IHt]; rewrite IH; split; intros (fs & Hin & Hu);
           exists fs;
           [split; [now right | exact Hu]
           | split; [destruct Hin as [Hin|Hin]; [discriminate | exact Hin]
                    | exact Hu]]).
    destruct (dict_get fields "relay_id") as [|b|z|f|s|l|d] eqn:Eg;
      try (split; [split; [intros _; exists fields; split;
                           [now left | now rewrite Eg]
                          | reflexivity]
                  | now left]);
      (destruct IHt as [Hr|[present Hr]]; rewrite Hr; cbn [bind];
       [split; [|now left]; split; [intros _|reflexivity];
        apply IH in Hr; destruct Hr as (fs & Hin & Hu); exists fs;
        split; [now right | exact Hu]
       |split; [|right; eexists; reflexivity];
        split; [discriminate|];
        intros (fs & [Hin|Hin] & Hu);
        [injection Hin as <-; rewrite Eg in Hu; discriminate Hu
        |assert (Hx : registered_ids items = Raise TypeError)
           by (apply IH; exists fs; auto);
         congruence]]).
Qed.

End Edges.

